(** * QueryAI: the read-only guard, database-identifier normalization,
      the schema summarizer, the query executor and the self-correcting
      Text-to-SQL loop.

    Sources embedded here:
    - [queryai/src/db_manager.py]: [build_sqlite_uri_from_path],
      [is_read_only_sql], [DatabaseManager.get_schema_summary],
      [DatabaseManager.run_read_only_query];
    - [queryai/src/app_core.py]: [normalize_db_uri];
    - [queryai/src/llm_engine.py]: [LLMEngine.generate_sql],
      [refine_sql_on_error], [generate_answer];
    - [queryai/src/text2sql_agent.py]: [TextToSQLAgent.answer_question]. *)

From Stdlib Require Import Bool Arith ZArith Lia List Ascii String.
Import ListNotations.

Set Implicit Arguments.

(* ================================================================== *)
(** * Python [str] operations used by the program

    A Python string is modelled as a Rocq [string]; the model is exact on
    ASCII text.  Characters with code 128 and above are carried around
    unchanged: they are never whitespace and have no case. *)
(* ================================================================== *)

Module PyStr.

Local Open Scope string_scope.

(** [str.isspace] on one ASCII character: TAB, LF, VT, FF, CR, the four
    separators FS GS RS US, and the space. *)
Definition is_space (c : ascii) : bool :=
  let n := nat_of_ascii c in
  ((9 <=? n) && (n <=? 13) || (28 <=? n) && (n <=? 32))%nat.

Definition upper_char (c : ascii) : ascii :=
  let n := nat_of_ascii c in
  if ((97 <=? n) && (n <=? 122))%nat then ascii_of_nat (n - 32) else c.

Definition lower_char (c : ascii) : ascii :=
  let n := nat_of_ascii c in
  if ((65 <=? n) && (n <=? 90))%nat then ascii_of_nat (n + 32) else c.

Fixpoint map_chars (f : ascii -> ascii) (s : string) : string :=
  match s with
  | EmptyString => EmptyString
  | String c s' => String (f c) (map_chars f s')
  end.

(** [s.upper()] and [s.lower()]. *)
Definition upper (s : string) : string := map_chars upper_char s.
Definition lower (s : string) : string := map_chars lower_char s.

(** [s.lstrip()]: drop the leading whitespace. *)
Fixpoint lstrip (s : string) : string :=
  match s with
  | EmptyString => EmptyString
  | String c s' => if is_space c then lstrip s' else s
  end.

(** [s.rstrip()]: drop the trailing whitespace.  A character is kept when
    something survives to its right, or when it is not whitespace itself. *)
Fixpoint rstrip (s : string) : string :=
  match s with
  | EmptyString => EmptyString
  | String c s' =>
      match rstrip s' with
      | EmptyString => if is_space c then EmptyString else String c EmptyString
      | r => String c r
      end
  end.

(** [s.strip()]. *)
Definition strip (s : string) : string := rstrip (lstrip s).

(** [s.startswith(p)]. *)
Fixpoint startswith (s p : string) {struct p} : bool :=
  match p with
  | EmptyString => true
  | String a p' =>
      match s with
      | EmptyString => false
      | String c s' => Ascii.eqb c a && startswith s' p'
      end
  end.


(** [needle in hay]: substring search, trying every start position. *)
Fixpoint contains (needle hay : string) : bool :=
  startswith hay needle ||
  match hay with
  | EmptyString => false
  | String _ hay' => contains needle hay'
  end.

(** [s.split()] with no separator: the maximal runs of non-whitespace
    characters, in order.  [cur] is the word being read. *)
Fixpoint split_from (cur s : string) : list string :=
  match s with
  | EmptyString =>
      match cur with EmptyString => [] | _ => [cur] end
  | String c s' =>
      if is_space c then
        match cur with
        | EmptyString => split_from EmptyString s'
        | _ => cur :: split_from EmptyString s'
        end
      else split_from (cur ++ String c EmptyString) s'
  end.

Definition split (s : string) : list string := split_from EmptyString s.

(** [sep.join(parts)]. *)
Fixpoint join (sep : string) (parts : list string) : string :=
  match parts with
  | [] => EmptyString
  | [p] => p
  | p :: rest => p ++ sep ++ join sep rest
  end.

Definition newline : string := String (ascii_of_nat 10) EmptyString.

End PyStr.

(* ================================================================== *)
(** * db_manager.py: the blocklist guard and the SQLite URI builder *)
(* ================================================================== *)

Module DbManager.
Import PyStr.
Local Open Scope string_scope.

Definition READ_ONLY_BLOCKLIST : list string :=
  ["INSERT"; "UPDATE"; "DELETE"; "DROP"; "ALTER"; "TRUNCATE"].

(** The local [normalized] of [is_read_only_sql]:
    [" ".join(sql.strip().upper().split())]. *)
Definition normalized (sql : string) : string :=
  join " " (split (upper (strip sql))).

(** [is_read_only_sql]: [not any(keyword in normalized for keyword in
    READ_ONLY_BLOCKLIST)]. *)
Definition is_read_only_sql (sql : string) : bool :=
  negb (existsb (fun keyword => contains keyword (normalized sql))
                READ_ONLY_BLOCKLIST).

(** [build_sqlite_uri_from_path]. *)
Definition build_sqlite_uri_from_path (path : string) : string :=
  let path := strip path in
  if startswith (lower path) "sqlite:" then path
  else "sqlite:///" ++ path.

End DbManager.

(* ================================================================== *)
(** * app_core.py: database-identifier normalization *)
(* ================================================================== *)

Module AppCore.
Import PyStr DbManager.
Local Open Scope string_scope.

(** [normalize_db_uri]. *)
Definition normalize_db_uri (raw : string) : string :=
  let raw := strip raw in
  if contains "://" raw then raw
  else build_sqlite_uri_from_path raw.

End AppCore.

(* ================================================================== *)
(** * Effects: collaborators that may raise, and the trace of their calls *)
(* ================================================================== *)

Module Effects.

(** What a call does: it returns a value, or it raises an [Exception]
    whose [str(exc)] is [exc]. *)
Inductive Outcome (A : Type) : Type :=
| Ok (a : A)
| Raise (exc : string).

Arguments Ok {A} a.
Arguments Raise {A} exc.

(** One column description of [inspector.get_columns]: [c['name']] and the
    text of [c.get('type')]. *)
Record Column : Type := { col_name : string; col_type : string }.

Definition Row : Type := list string.
Definition Params : Type := list (string * string).

(** [pd.DataFrame(rows, columns=keys)]. *)
Record DataFrame : Type := { columns : list string; rows : list Row }.

Record QueryResult : Type := { dataframe : DataFrame; rowcount : Z }.

(** Every call that leaves the program, with what came back.  The first
    four are made by [DatabaseManager] on the inspector and the connection;
    the last five are the calls [answer_question] makes. *)
Inductive Event : Type :=
| EvTableNames (o : Outcome (list string))
| EvColumns (table_name : string) (o : Outcome (list Column))
| EvConnect (o : Outcome unit)
| EvSend (statement : string) (params : Params)
         (o : Outcome (list string * list Row))
| EvSchema (o : Outcome string)
| EvGenerate (o : Outcome string)
| EvExec (candidate : string) (o : Outcome QueryResult)
| EvAnswer (candidate results_text : string) (o : Outcome string)
| EvRefine (previous_sql error_message : string) (o : Outcome string).

(** The external collaborators over a world [W] (the database server and
    the model service): each call may change the world, and returns or
    raises.
    - [get_table_names]: [inspect(self.engine)] and
      [inspector.get_table_names()];
    - [get_columns]: [inspector.get_columns(table_name)];
    - [dialect_name]: [getattr(self._db.engine.dialect, "name", "sqlite")];
    - [connect]: [self.engine.connect()], the engine being created on
      first use;
    - [execute]: [conn.execute(text(sql), params)], [result.fetchall()]
      and [result.keys()];
    - [to_string]: [dataframe.to_string(index=False)];
    - [base_chain], [error_chain], [answer_chain]: the [invoke] of the
      three prompt chains, with the values that fill the template. *)
Record Env (W : Type) : Type := {
  get_table_names : W -> Outcome (list string) * W;
  get_columns : string -> W -> Outcome (list Column) * W;
  dialect_name : string;
  connect : W -> Outcome unit * W;
  execute : string -> Params -> W -> Outcome (list string * list Row) * W;
  to_string : DataFrame -> string;
  base_chain : string -> string -> string -> W -> Outcome string * W;
  error_chain :
    string -> string -> string -> string -> string -> W -> Outcome string * W;
  answer_chain : string -> string -> string -> W -> Outcome string * W
}.

Section Monad.
Context {W : Type}.

(** A computation: from a world to an outcome, the new world and the calls
    made; [None] when the fuel of a loop ran out. *)
Definition M (A : Type) : Type := W -> option (Outcome A * W * list Event).

Definition ret {A} (a : A) : M A := fun w => Some (Ok a, w, []).

Definition raise {A} (exc : string) : M A := fun w => Some (Raise exc, w, []).

Definition out_of_fuel {A} : M A := fun _ => None.

Definition bind {A B} (m : M A) (k : A -> M B) : M B := fun w =>
  match m w with
  | None => None
  | Some (Raise exc, w1, t1) => Some (Raise exc, w1, t1)
  | Some (Ok a, w1, t1) =>
      match k a w1 with
      | None => None
      | Some (r, w2, t2) => Some (r, w2, t1 ++ t2)
      end
  end.

(** [try: body / except Exception as exc: handler(str(exc))]. *)
Definition try_except {A} (body : M A) (handler : string -> M A) : M A :=
  fun w =>
  match body w with
  | None => None
  | Some (Ok a, w1, t1) => Some (Ok a, w1, t1)
  | Some (Raise exc, w1, t1) =>
      match handler exc w1 with
      | None => None
      | Some (r, w2, t2) => Some (r, w2, t1 ++ t2)
      end
  end.

(** A call of a collaborator, recorded with its outcome. *)
Definition call {A} (ev : Outcome A -> Event) (f : W -> Outcome A * W) : M A :=
  fun w => let '(o, w1) := f w in Some (o, w1, [ev o]).

(** A call of a collaborator that the trace does not record by itself. *)
Definition invoke {A} (f : W -> Outcome A * W) : M A :=
  fun w => let '(o, w1) := f w in Some (o, w1, []).

(** A call of a method of the program, recorded with its outcome after
    the calls it made itself. *)
Definition observe {A} (ev : Outcome A -> Event) (m : M A) : M A := fun w =>
  match m w with
  | None => None
  | Some (o, w1, t1) => Some (o, w1, t1 ++ [ev o])
  end.

End Monad.

Arguments M W A : clear implicits.

Declare Scope py_scope.
Delimit Scope py_scope with py.
Notation "x <- m ;; k" := (bind m (fun x => k))
  (at level 61, m at next level, right associativity) : py_scope.

End Effects.

(* ================================================================== *)
(** * db_manager.py: [DatabaseManager] *)
(* ================================================================== *)

Module Database.
Import PyStr DbManager Effects.
Local Open Scope string_scope.
Local Open Scope py_scope.

(** The text of one column: [f"{c['name']} ({c.get('type')})"]. *)
Definition column_text (c : Column) : string :=
  col_name c ++ " (" ++ col_type c ++ ")".

(** The line of one table: [f"Table {table_name}: {col_desc}"]. *)
Definition table_line (table_name : string) (cols : list Column) : string :=
  let col_desc := join ", " (map column_text cols) in
  "Table " ++ table_name ++ ": " ++ col_desc.

Section WithEnv.
Context {W : Type} (E : Env W).

(** The [for table_name in inspector.get_table_names()] loop, [lines]
    being the list appended to. *)
Fixpoint schema_lines (tables : list string) (lines : list string)
  : M W (list string) :=
  match tables with
  | [] => ret lines
  | table_name :: rest =>
      cols <- call (EvColumns table_name) (get_columns E table_name) ;;
      schema_lines rest (lines ++ [table_line table_name cols])%list
  end.

(** [DatabaseManager.get_schema_summary]. *)
Definition get_schema_summary : M W string :=
  tables <- call EvTableNames (get_table_names E) ;;
  lines <- schema_lines tables [] ;;
  ret (join newline lines).

Definition unsafe_message : string :=
  "Only read-only SELECT-style queries are allowed.".

(** [DatabaseManager.run_read_only_query]: the guard, then
    [with self.engine.connect() as conn], [conn.execute(text(sql),
    params or {})], [fetchall], and the [QueryResult]. *)
Definition run_read_only_query (sql : string) (params : option Params)
  : M W QueryResult :=
  if negb (is_read_only_sql sql) then raise unsafe_message
  else
    _ <- call EvConnect (connect E) ;;
    let params := match params with Some p => p | None => [] end in
    res <- call (EvSend sql params) (execute E sql params) ;;
    let '(keys, fetched) := res in
    let dataframe := {| columns := keys; rows := fetched |} in
    ret {| dataframe := dataframe;
           rowcount := Z.of_nat (List.length fetched) |}.

End WithEnv.
End Database.

(* ================================================================== *)
(** * llm_engine.py: [LLMEngine] *)
(* ================================================================== *)

Module LLMEngine.
Import PyStr Effects.
Local Open Scope py_scope.

Section WithEnv.
Context {W : Type} (E : Env W).

(** Each method invokes its chain and returns the stripped text. *)
Definition generate_sql (question schema_summary dialect : string)
  : M W string :=
  sql <- invoke (base_chain E question schema_summary dialect) ;;
  ret (strip sql).

Definition refine_sql_on_error
  (question schema_summary previous_sql error_message dialect : string)
  : M W string :=
  sql <- invoke (error_chain E question schema_summary previous_sql
                             error_message dialect) ;;
  ret (strip sql).

Definition generate_answer (question sql results : string) : M W string :=
  answer <- invoke (answer_chain E question sql results) ;;
  ret (strip answer).

End WithEnv.
End LLMEngine.

(* ================================================================== *)
(** * text2sql_agent.py: [TextToSQLAgent] *)
(* ================================================================== *)

Module Agent.
Import PyStr Effects Database LLMEngine.
Local Open Scope py_scope.
Local Open Scope Z_scope.

Record AgentResponse : Type := {
  sql : string;
  result : option QueryResult;
  error : option string;
  attempts : Z;
  answer : option string
}.

(** How one pass through the body of the [while] loop ends: at the
    [return] in the [try], at the [break], or at the bottom of the
    [except] block with the refined SQL and the incremented counter. *)
Inductive Control : Type :=
| Return (response : AgentResponse)
| Break (last_error : option string)
| Continue (sql : string) (attempts : Z) (last_error : option string).

Section WithEnv.
Context {W : Type} (E : Env W).
Variable max_retries : Z.
Variables question schema_summary dialect : string.

(** The body of the [while] loop. *)
Definition attempt (attempts : Z) (sql : string) : M W Control :=
  try_except
    (result <- observe (EvExec sql) (run_read_only_query E sql None) ;;
     let results_text := to_string E (dataframe result) in
     answer <- observe (EvAnswer sql results_text)
                 (generate_answer E question sql results_text) ;;
     ret (Return {| sql := sql; result := Some result; error := None;
                    attempts := attempts; answer := Some answer |}))
    (fun exc =>
       let last_error := Some exc in
       if attempts >=? max_retries then ret (Break last_error)
       else
         sql' <- observe (EvRefine sql exc)
                   (refine_sql_on_error E question schema_summary sql exc
                                        dialect) ;;
         ret (Continue sql' (attempts + 1) last_error)).

(** [while attempts <= self._max_retries: ...] followed by the final
    [return]; [fuel] bounds the number of passes. *)
Fixpoint answer_loop (fuel : nat) (attempts : Z) (last_error : option string)
  (sql : string) : M W AgentResponse :=
  if attempts <=? max_retries then
    match fuel with
    | O => out_of_fuel
    | S fuel' =>
        c <- attempt attempts sql ;;
        match c with
        | Return response => ret response
        | Break last_error' =>
            ret {| sql := sql; result := None; error := last_error';
                   attempts := attempts; answer := None |}
        | Continue sql' attempts' last_error' =>
            answer_loop fuel' attempts' last_error' sql'
        end
    end
  else
    ret {| sql := sql; result := None; error := last_error;
           attempts := attempts; answer := None |}.

End WithEnv.

(** [TextToSQLAgent.answer_question], with the fuel of its loop. *)
Definition answer_question_fuel {W} (E : Env W) (fuel : nat)
  (max_retries : Z) (question : string) : M W AgentResponse :=
  schema_summary <- observe EvSchema (get_schema_summary E) ;;
  let dialect := dialect_name E in
  let attempts := 0 in
  let last_error := None in
  sql <- observe EvGenerate (generate_sql E question schema_summary dialect) ;;
  let attempts := attempts + 1 in
  answer_loop E max_retries question schema_summary dialect fuel attempts
    last_error sql.

(** The loop makes at most [max_retries] passes, so this fuel is never
    used up ([answer_question_fuel_enough] below). *)
Definition answer_question {W} (E : Env W) (max_retries : Z)
  (question : string) : M W AgentResponse :=
  answer_question_fuel E (Z.to_nat max_retries) max_retries question.

(** Counting the calls of a run. *)
Definition is_exec (ev : Event) : bool :=
  match ev with EvExec _ _ => true | _ => false end.

Definition is_refine (ev : Event) : bool :=
  match ev with EvRefine _ _ _ => true | _ => false end.

Definition count (p : Event -> bool) (tr : list Event) : Z :=
  Z.of_nat (List.length (filter p tr)).

Definition exec_attempts (tr : list Event) : Z := count is_exec tr.
Definition refine_calls (tr : list Event) : Z := count is_refine tr.

End Agent.

(* ================================================================== *)
(** * A scripted world, to run the program on concrete outcomes *)
(* ================================================================== *)

Module Scripted.
Import PyStr Effects.
Local Open Scope string_scope.

(** The catalog the inspector reads, and for every other collaborator the
    outcomes of its successive calls. *)
Record Script : Type := {
  catalog : Outcome (list (string * list Column));
  connects : list (Outcome unit);
  executes : list (Outcome (list string * list Row));
  generations : list (Outcome string);
  refinements : list (Outcome string);
  answers : list (Outcome string)
}.

Definition next {A} (q : list (Outcome A)) : Outcome A * list (Outcome A) :=
  match q with
  | [] => (Raise "no more scripted outcomes", [])
  | o :: q' => (o, q')
  end.

Fixpoint lookup (table_name : string) (cat : list (string * list Column))
  : Outcome (list Column) :=
  match cat with
  | [] => Raise "no such table"
  | (t, cols) :: cat' =>
      if String.eqb t table_name then Ok cols else lookup table_name cat'
  end.

Definition script_env : Env Script := {|
  get_table_names := fun w =>
    (match catalog w with
     | Ok cat => Ok (map fst cat)
     | Raise exc => Raise exc
     end, w);
  get_columns := fun table_name w =>
    (match catalog w with
     | Ok cat => lookup table_name cat
     | Raise exc => Raise exc
     end, w);
  dialect_name := "sqlite";
  connect := fun w =>
    let '(o, q) := next (connects w) in
    (o, {| catalog := catalog w; connects := q; executes := executes w;
           generations := generations w; refinements := refinements w;
           answers := answers w |});
  execute := fun _ _ w =>
    let '(o, q) := next (executes w) in
    (o, {| catalog := catalog w; connects := connects w; executes := q;
           generations := generations w; refinements := refinements w;
           answers := answers w |});
  to_string := fun df => join newline (map (join " ") (columns df :: rows df));
  base_chain := fun _ _ _ w =>
    let '(o, q) := next (generations w) in
    (o, {| catalog := catalog w; connects := connects w;
           executes := executes w; generations := q;
           refinements := refinements w; answers := answers w |});
  error_chain := fun _ _ _ _ _ w =>
    let '(o, q) := next (refinements w) in
    (o, {| catalog := catalog w; connects := connects w;
           executes := executes w; generations := generations w;
           refinements := q; answers := answers w |});
  answer_chain := fun _ _ _ w =>
    let '(o, q) := next (answers w) in
    (o, {| catalog := catalog w; connects := connects w;
           executes := executes w; generations := generations w;
           refinements := refinements w; answers := q |})
|}.

(** The [orders(id, user_id, total)] database of the end-to-end scenario. *)
Definition orders_catalog : list (string * list Column) :=
  [("orders", [ {| col_name := "id"; col_type := "INTEGER" |};
                {| col_name := "user_id"; col_type := "INTEGER" |};
                {| col_name := "total"; col_type := "REAL" |} ])].

Definition always_connects : list (Outcome unit) :=
  [Ok tt; Ok tt; Ok tt; Ok tt; Ok tt].

Definition select_rows : Outcome (list string * list Row) :=
  Ok (["user_id"; "n"], [["1"; "2"]; ["2"; "5"]]).

Definition script (execs : list (Outcome (list string * list Row)))
  (gens refs anss : list (Outcome string)) : Script :=
  {| catalog := Ok orders_catalog; connects := always_connects;
     executes := execs; generations := gens; refinements := refs;
     answers := anss |}.

(** The first candidate fails, the refined one runs and is answered. *)
Definition retry_succeeds : Script :=
  script [Raise "near SELEC: syntax error"; select_rows]
         [Ok "SELEC user_id FROM orders"]
         [Ok "SELECT user_id, count(*) AS n FROM orders GROUP BY user_id"]
         [Ok "User 1 has 2 orders and user 2 has 5."].

(** The first execution returns rows, but the answer synthesis raises. *)
Definition answer_fails_once : Script :=
  script [select_rows; select_rows]
         [Ok "SELECT user_id, count(*) AS n FROM orders GROUP BY user_id"]
         [Ok "SELECT user_id, count(id) AS n FROM orders GROUP BY user_id"]
         [Raise "model timed out"; Ok "User 1 has 2 orders and user 2 has 5."].

(** Three candidates, three execution errors. *)
Definition all_fail : Script :=
  script [Raise "no such table: order"; Raise "no such column: uid";
          Raise "near FROM: syntax error"]
         [Ok "SELECT * FROM order"]
         [Ok "SELECT uid FROM orders"; Ok "SELECT FROM orders"]
         [].

(** The execution fails and the refinement call raises. *)
Definition refine_fails : Script :=
  script [Raise "no such table: order"]
         [Ok "SELECT * FROM order"]
         [Raise "401 unauthorized"]
         [].

(** The first generation call raises. *)
Definition generate_fails : Script :=
  script [] [Raise "401 unauthorized"] [] [].

End Scripted.

(* ================================================================== *)
(** * Facts about the string operations *)
(* ================================================================== *)

Unset Implicit Arguments.

Module PyStrFacts.
Import PyStr.
Local Open Scope string_scope.

(** [t] occurs in [s] as a substring. *)
Definition occurs_in (t s : string) : Prop :=
  exists pre post, s = pre ++ t ++ post.

(** No character of [s] is whitespace. *)
Fixpoint no_space (s : string) : bool :=
  match s with
  | EmptyString => true
  | String c s' => negb (is_space c) && no_space s'
  end.

Lemma startswith_spec (s p : string) :
  startswith s p = true <-> exists post, s = p ++ post.
Proof.
  revert s. induction p as [|a p IH]; intros s; simpl.
  - split; [intros _; now exists s | reflexivity].
  - destruct s as [|c s].
    + split; [discriminate | intros [post H]; discriminate].
    + rewrite andb_true_iff, Ascii.eqb_eq, IH. split.
      * intros [-> [post ->]]. now exists post.
      * intros [post H]. injection H as -> ->. split; [reflexivity | now exists post].
Qed.

Lemma contains_spec (needle hay : string) :
  contains needle hay = true <-> occurs_in needle hay.
Proof.
  unfold occurs_in. induction hay as [|c hay IH].
  - simpl. rewrite orb_false_r, startswith_spec. split.
    + intros [post H]. now exists "", post.
    + intros [[|x pre] [post H]]; [now exists post | discriminate].
  - cbn [contains]. rewrite orb_true_iff, startswith_spec, IH. split.
    + intros [[post H] | [pre [post H]]].
      * now exists "", post.
      * exists (String c pre), post. simpl. now rewrite H.
    + intros [[|x pre] [post H]].
      * left. now exists post.
      * right. injection H as _ H. now exists pre, post.
Qed.

(** ** Stripping *)

Lemma rstrip_cons (c : ascii) (s : string) :
  rstrip (String c s) =
  match rstrip s with
  | "" => if is_space c then "" else String c ""
  | r => String c r
  end.
Proof. reflexivity. Qed.

Lemma rstrip_keep (c : ascii) (s : string) :
  is_space c = false -> rstrip (String c s) = String c (rstrip s).
Proof. intros H. simpl. rewrite H. now destruct (rstrip s). Qed.

Lemma rstrip_idem (s : string) : rstrip (rstrip s) = rstrip s.
Proof.
  induction s as [|c s IH]; [reflexivity|].
  rewrite rstrip_cons. destruct (rstrip s) as [|d r] eqn:R.
  - destruct (is_space c) eqn:C; simpl; [reflexivity | now rewrite C].
  - rewrite rstrip_cons, IH. reflexivity.
Qed.

Lemma lstrip_head (s : string) :
  lstrip s = "" \/ exists c t, lstrip s = String c t /\ is_space c = false.
Proof.
  induction s as [|c s IH]; simpl; [now left|].
  destruct (is_space c) eqn:C; [exact IH | right; now exists c, s].
Qed.

Lemma lstrip_fixed (c : ascii) (t : string) :
  is_space c = false -> lstrip (String c t) = String c t.
Proof. intros H. simpl. now rewrite H. Qed.

Lemma strip_lstrip (s : string) : lstrip (strip s) = strip s.
Proof.
  unfold strip. destruct (lstrip_head s) as [-> | (c & t & -> & C)];
    [reflexivity|].
  rewrite (rstrip_keep c t C). now apply lstrip_fixed.
Qed.

Lemma strip_rstrip (s : string) : rstrip (strip s) = strip s.
Proof. unfold strip. apply rstrip_idem. Qed.

Lemma strip_idem (s : string) : strip (strip s) = strip s.
Proof.
  unfold strip at 1. rewrite strip_lstrip. apply strip_rstrip.
Qed.

Lemma rstrip_append (a b : string) :
  rstrip (a ++ b) =
  match rstrip b with "" => rstrip a | _ => a ++ rstrip b end.
Proof.
  induction a as [|x a IH]; simpl.
  - now destruct (rstrip b).
  - rewrite IH. destruct (rstrip b) as [|d r]; [reflexivity|].
    now destruct a.
Qed.

(** ** Searching a stripped string *)





(** ** Splitting on whitespace *)

Lemma is_space_upper_char (c : ascii) : is_space (upper_char c) = is_space c.
Proof. destruct c as [[] [] [] [] [] [] [] []]; reflexivity. Qed.










End PyStrFacts.

(* ================================================================== *)
(** * The read-only guard and the database identifier *)
(* ================================================================== *)

Module GuardFacts.
Import PyStr DbManager AppCore PyStrFacts.
Local Open Scope string_scope.





(** ** [normalize_db_uri] *)

Lemma sqlite_prefix_stripped (p : string) :
  rstrip p = p -> strip ("sqlite:///" ++ p) = "sqlite:///" ++ p.
Proof.
  intros Hp. unfold strip.
  change (lstrip ("sqlite:///" ++ p)) with ("sqlite:///" ++ p).
  rewrite rstrip_append, Hp. now destruct p.
Qed.

Lemma sqlite_prefix_contains (p : string) :
  contains "://" ("sqlite:///" ++ p) = true.
Proof. apply contains_spec. now exists "sqlite", ("/" ++ p). Qed.





End GuardFacts.

(* ================================================================== *)
(** * The schema summarizer and the query executor *)
(* ================================================================== *)

Module DatabaseFacts.
Import PyStr DbManager Effects Database Scripted.
Local Open Scope string_scope.
Local Open Scope list_scope.

(** The calls of one [run_read_only_query sql] and what it does: nothing
    is called when the guard refuses [sql]; otherwise one connection is
    opened and, when that worked, [sql] is sent on it once. *)
Inductive query_events (sql : string) (params : Params)
  : list Event -> Outcome QueryResult -> Prop :=
| query_refused :
    is_read_only_sql sql = false ->
    query_events sql params [] (Raise unsafe_message)
| query_no_connection exc :
    is_read_only_sql sql = true ->
    query_events sql params [EvConnect (Raise exc)] (Raise exc)
| query_failed exc :
    is_read_only_sql sql = true ->
    query_events sql params
      [EvConnect (Ok tt); EvSend sql params (Raise exc)] (Raise exc)
| query_fetched keys fetched :
    is_read_only_sql sql = true ->
    query_events sql params
      [EvConnect (Ok tt); EvSend sql params (Ok (keys, fetched))]
      (Ok {| dataframe := {| columns := keys; rows := fetched |};
             rowcount := Z.of_nat (List.length fetched) |}).

Definition params_or_empty (params : option Params) : Params :=
  match params with Some p => p | None => [] end.

Section WithEnv.
Context {W : Type} (E : Env W).

Lemma run_read_only_query_events (sql : string) (params : option Params)
  (w : W) :
  exists o w' tr,
    run_read_only_query E sql params w = Some (o, w', tr) /\
    query_events sql (params_or_empty params) tr o.
Proof.
  unfold run_read_only_query, bind, call, raise, ret.
  destruct (is_read_only_sql sql) eqn:G; simpl.
  - destruct (connect E w) as [[[]|exc] w1].
    + fold (params_or_empty params).
      destruct (execute E sql (params_or_empty params) w1)
        as [[[keys fetched]|exc] w2]; simpl.
      * do 3 eexists. split; [reflexivity | now constructor].
      * do 3 eexists. split; [reflexivity | now constructor].
    + do 3 eexists. split; [reflexivity | now constructor].
  - do 3 eexists. split; [reflexivity | now constructor].
Qed.


(** ** The schema summary *)

Definition columns_event (t : string * list Column) : Event :=
  EvColumns (fst t) (Ok (snd t)).

Definition line_of (t : string * list Column) : string :=
  ("Table " ++ fst t ++ ": " ++
   join ", " (map (fun c => col_name c ++ " (" ++ col_type c ++ ")") (snd t))
  )%string.

Lemma schema_lines_run (tables : list string) :
  forall (lines : list string) (w : W),
  exists o w' tr,
    schema_lines E tables lines w = Some (o, w', tr) /\
    forall ls, o = Ok ls ->
      exists described : list (string * list Column),
        map fst described = tables /\
        tr = map columns_event described /\
        ls = lines ++ map line_of described.
Proof.
  induction tables as [|t rest IH]; intros lines w.
  - exists (Ok lines), w, []. split; [reflexivity|].
    intros ls [= <-]. exists []. now rewrite app_nil_r.
  - cbn [schema_lines]. unfold bind, call.
    destruct (get_columns E t w) as [[cols|exc] w1].
    + destruct (IH (lines ++ [table_line t cols]) w1)
        as (o & w2 & tr & Hrun & Hok).
      rewrite Hrun. exists o, w2, ([EvColumns t (Ok cols)] ++ tr).
      split; [reflexivity|]. intros ls Ho.
      destruct (Hok ls Ho) as (described & Hfst & Htr & Hls).
      exists ((t, cols) :: described). simpl. rewrite Hfst, Htr, Hls.
      repeat split. now rewrite <- app_assoc.
    + exists (Raise exc), w1, [EvColumns t (Raise exc)].
      split; [reflexivity | discriminate].
Qed.

Lemma get_schema_summary_run (w : W) :
  exists o w' tr,
    get_schema_summary E w = Some (o, w', tr) /\
    forall summary, o = Ok summary ->
      exists described : list (string * list Column),
        tr = EvTableNames (Ok (map fst described))
               :: map columns_event described /\
        summary = join newline (map line_of described).
Proof.
  unfold get_schema_summary, bind, call, ret.
  destruct (get_table_names E w) as [[tables|exc] w1].
  - destruct (schema_lines_run tables [] w1) as (o & w2 & tr & Hrun & Hok).
    rewrite Hrun. destruct o as [ls|exc].
    + do 3 eexists. split; [reflexivity|].
      intros summary [= <-].
      destruct (Hok ls eq_refl) as (described & Hfst & Htr & Hls).
      exists described. now rewrite Hfst, Htr, Hls, app_nil_r.
    + do 3 eexists. split; [reflexivity | discriminate].
  - do 3 eexists. split; [reflexivity | discriminate].
Qed.

(** C7, as the code has it.  [get_schema_summary] asks for the table
    names once, then for the columns of every table in the order the
    names came in, once each; when all these calls return, the summary is
    the lines ["Table <name>: col1 (type1), col2 (type2), ..."], one per
    table in that order, joined by newlines.  Each line begins with the
    word ["Table "]. *)
Theorem get_schema_summary_lines (w : W) :
  exists o w' tr,
    get_schema_summary E w = Some (o, w', tr) /\
    forall summary, o = Ok summary ->
      exists described : list (string * list Column),
        tr = EvTableNames (Ok (map fst described))
               :: map columns_event described /\
        List.length (map line_of described) = List.length described /\
        (forall t, In t described ->
           line_of t =
             ("Table " ++ fst t ++ ": " ++
              join ", " (map (fun c => col_name c ++ " (" ++ col_type c ++ ")")
                             (snd t)))%string) /\
        summary = join newline (map line_of described).
Proof.
  destruct (get_schema_summary_run w) as (o & w' & tr & Hrun & Hok).
  exists o, w', tr. split; [exact Hrun|].
  intros summary Ho. destruct (Hok summary Ho) as (described & Htr & Hsum).
  exists described. repeat split; try assumption. apply length_map.
Qed.


End WithEnv.

(** C7 as stated fails on the [orders] table: the line begins with
    ["Table "], not with the table's name. *)
Lemma get_schema_summary_line_prefix :
  let w := {| catalog := Ok orders_catalog; connects := []; executes := [];
              generations := []; refinements := []; answers := [] |} in
  get_schema_summary script_env w =
    Some (Ok "Table orders: id (INTEGER), user_id (INTEGER), total (REAL)",
          w,
          [EvTableNames (Ok ["orders"]);
           EvColumns "orders" (Ok (snd (List.hd ("", []) orders_catalog)))]) /\
  "Table orders: id (INTEGER), user_id (INTEGER), total (REAL)" <>
  "orders: id (INTEGER), user_id (INTEGER), total (REAL)".
Proof. split; [reflexivity | discriminate]. Qed.

(** C7 on the [orders] table. *)
Lemma get_schema_summary_lines_witness :
  match get_schema_summary script_env
          (script [] [] [] []) with
  | Some (Ok summary, _, tr) =>
      summary = "Table orders: id (INTEGER), user_id (INTEGER), total (REAL)"
      /\ exists described : list (string * list Column),
        tr = EvTableNames (Ok (map fst described))
               :: map columns_event described /\
        List.length (map line_of described) = List.length described /\
        (forall t, In t described ->
           line_of t =
             ("Table " ++ fst t ++ ": " ++
              join ", " (map (fun c => col_name c ++ " (" ++ col_type c ++ ")")
                             (snd t)))%string) /\
        summary = join newline (map line_of described)
  | _ => False
  end.
Proof.
  destruct (get_schema_summary_lines script_env (script [] [] [] []))
    as (o & w' & tr & Hrun & Hok).
  rewrite Hrun. vm_compute in Hrun. injection Hrun as <- <- <-.
  split; [reflexivity | exact (Hok _ eq_refl)].
Defined.


End DatabaseFacts.

(* ================================================================== *)
(** * The self-correcting loop *)
(* ================================================================== *)

Module AgentFacts.
Import PyStr DbManager Effects Database LLMEngine Agent DatabaseFacts.
Local Open Scope string_scope.
Local Open Scope list_scope.
Local Open Scope Z_scope.

(** ** Lists of events *)

Lemma count_app (p : Event -> bool) (l1 l2 : list Event) :
  count p (l1 ++ l2) = count p l1 + count p l2.
Proof. unfold count. rewrite filter_app, length_app. lia. Qed.

Lemma count_one (p : Event -> bool) (ev : Event) :
  count p [ev] = if p ev then 1 else 0.
Proof. unfold count. simpl. now destruct (p ev). Qed.

Lemma split_after (l1 l2 pre post : list Event) (x : Event) :
  l1 ++ l2 = pre ++ x :: post -> ~ In x l1 ->
  exists mid, pre = l1 ++ mid /\ l2 = mid ++ x :: post.
Proof.
  revert pre. induction l1 as [|y l1 IH]; intros pre Heq Hnot.
  - now exists pre.
  - destruct pre as [|z pre]; simpl in Heq; injection Heq as -> Heq.
    + exfalso. apply Hnot. now left.
    + destruct (IH pre Heq) as (mid & -> & ->).
      * intros Hin. apply Hnot. now right.
      * now exists mid.
Qed.

Lemma split_at_last (l pre post : list Event) (x y : Event) :
  l ++ [y] = pre ++ x :: post -> ~ In x l ->
  pre = l /\ x = y /\ post = [].
Proof.
  intros Heq Hnot. destruct (split_after _ _ _ _ _ Heq Hnot) as (mid & -> & H).
  destruct mid as [|z mid]; simpl in H.
  - injection H as -> <-. now rewrite app_nil_r.
  - injection H as _ H. now destruct mid.
Qed.

Lemma split_at_or_after (init rest pre post : list Event) (x y : Event) :
  init ++ x :: rest = pre ++ y :: post -> ~ In y init ->
  (pre = init /\ x = y /\ post = rest) \/
  (exists mid, pre = init ++ x :: mid /\ rest = mid ++ y :: post).
Proof.
  intros Heq Hnot. destruct (split_after _ _ _ _ _ Heq Hnot) as (mid & -> & H).
  destruct mid as [|z mid]; simpl in H; injection H as -> H.
  - left. now rewrite app_nil_r.
  - right. now exists mid.
Qed.

(** ** One call of each method of the model engine *)

Section WithEnv.
Context {W : Type} (E : Env W).

Lemma generate_sql_run (question schema_summary dialect : string) (w : W) :
  exists o w', generate_sql E question schema_summary dialect w =
               Some (o, w', []).
Proof.
  unfold generate_sql, bind, invoke, ret.
  destruct (base_chain E question schema_summary dialect w) as [[s|exc] w1];
    simpl; eauto.
Qed.

Lemma refine_sql_on_error_run
  (question schema_summary previous_sql error_message dialect : string)
  (w : W) :
  exists o w', refine_sql_on_error E question schema_summary previous_sql
                 error_message dialect w = Some (o, w', []).
Proof.
  unfold refine_sql_on_error, bind, invoke, ret.
  destruct (error_chain E question schema_summary previous_sql error_message
              dialect w) as [[s|exc] w1]; simpl; eauto.
Qed.

Lemma generate_answer_run (question sql results : string) (w : W) :
  exists o w', generate_answer E question sql results w = Some (o, w', []).
Proof.
  unfold generate_answer, bind, invoke, ret.
  destruct (answer_chain E question sql results w) as [[s|exc] w1];
    simpl; eauto.
Qed.

End WithEnv.

(** ** The calls of one execution *)

Definition is_driver (ev : Event) : bool :=
  match ev with EvConnect _ | EvSend _ _ _ => true | _ => false end.

Definition is_catalog (ev : Event) : bool :=
  match ev with EvTableNames _ | EvColumns _ _ => true | _ => false end.

Lemma query_events_driver (sql : string) (params : Params)
  (drv : list Event) (o : Outcome QueryResult) (ev : Event) :
  query_events sql params drv o -> In ev drv -> is_driver ev = true.
Proof.
  intros Hq Hin. inversion Hq; subst; simpl in Hin;
    repeat (destruct Hin as [<-|Hin]; [reflexivity|]); contradiction.
Qed.

Lemma query_events_count (p : Event -> bool) (sql : string)
  (params : Params) (drv : list Event) (o : Outcome QueryResult) :
  (forall ev, is_driver ev = true -> p ev = false) ->
  query_events sql params drv o -> count p drv = 0.
Proof.
  intros Hp Hq. unfold count.
  inversion Hq; subst; simpl; rewrite ?Hp; reflexivity.
Qed.

Lemma catalog_count (p : Event -> bool) (sch : list Event) :
  (forall ev, is_catalog ev = true -> p ev = false) ->
  Forall (fun ev => is_catalog ev = true) sch -> count p sch = 0.
Proof.
  intros Hp Hsch. unfold count. induction Hsch as [|ev sch Hev _ IH];
    [reflexivity|]. simpl. now rewrite (Hp ev Hev).
Qed.

Lemma driver_not_exec (ev : Event) : is_driver ev = true -> is_exec ev = false.
Proof. now destruct ev. Qed.

Lemma driver_not_refine (ev : Event) :
  is_driver ev = true -> is_refine ev = false.
Proof. now destruct ev. Qed.

Lemma catalog_not_exec (ev : Event) :
  is_catalog ev = true -> is_exec ev = false.
Proof. now destruct ev. Qed.

Lemma catalog_not_refine (ev : Event) :
  is_catalog ev = true -> is_refine ev = false.
Proof. now destruct ev. Qed.

(** The candidate and the error text of a failed execution or of a
    failed answer synthesis. *)
Definition failure_of (ev : Event) : option (string * string) :=
  match ev with
  | EvExec s (Raise e) => Some (s, e)
  | EvAnswer s _ (Raise e) => Some (s, e)
  | _ => None
  end.

Lemma driver_no_failure (ev : Event) :
  is_driver ev = true -> failure_of ev = None.
Proof. now destruct ev. Qed.

Lemma catalog_no_failure (ev : Event) :
  is_catalog ev = true -> failure_of ev = None.
Proof. now destruct ev. Qed.

(** What a call made outside the [try] block raised, if it raised. *)
Definition raised_outside_try (ev : Event) : option string :=
  match ev with
  | EvSchema (Raise x) | EvGenerate (Raise x) | EvRefine _ _ (Raise x) =>
      Some x
  | _ => None
  end.

Lemma catalog_not_raised (ev : Event) :
  is_catalog ev = true -> raised_outside_try ev = None.
Proof. now destruct ev. Qed.

Lemma driver_not_raised (ev : Event) :
  is_driver ev = true -> raised_outside_try ev = None.
Proof. now destruct ev. Qed.

(** Membership in a trace built from driver calls and explicit events. *)
Ltac in_trace :=
  repeat match goal with
  | H : In _ (_ ++ _) |- _ => apply in_app_or in H; destruct H as [H|H]
  | H : In _ (_ :: _) |- _ => destruct H as [H|H]; [try discriminate H|]
  | H : In _ [] |- _ => contradiction H
  | Hq : query_events _ _ ?drv _, H : In _ ?drv |- _ =>
      apply (query_events_driver _ _ _ _ _ Hq) in H; try discriminate H
  | Hs : Forall (fun ev => is_catalog ev = true) ?sch, H : In _ ?sch |- _ =>
      apply (proj1 (Forall_forall _ _) Hs) in H; try discriminate H
  end.

(** ** The runs of the loop, as traces *)

Section Runs.
Variable max_retries : Z.

(** A pass that ends in the [except] block with [str(exc) = exc]: the
    execution raised, or it returned and the answer synthesis raised. *)
Inductive failed_attempt (candidate : string)
  : list Event -> string -> Prop :=
| failed_execution drv exc :
    query_events candidate [] drv (Raise exc) ->
    failed_attempt candidate (drv ++ [EvExec candidate (Raise exc)]) exc
| failed_answer drv qr txt exc :
    query_events candidate [] drv (Ok qr) ->
    failed_attempt candidate
      (drv ++ [EvExec candidate (Ok qr); EvAnswer candidate txt (Raise exc)])
      exc.

(** One pass through the body of the loop. *)
Inductive attempt_run (n : Z) (candidate : string)
  : list Event -> Outcome Control -> Prop :=
| attempt_returns drv qr txt ans :
    query_events candidate [] drv (Ok qr) ->
    attempt_run n candidate
      (drv ++ [EvExec candidate (Ok qr); EvAnswer candidate txt (Ok ans)])
      (Ok (Return {| sql := candidate; result := Some qr; error := None;
                     attempts := n; answer := Some ans |}))
| attempt_breaks fl exc :
    failed_attempt candidate fl exc -> n >= max_retries ->
    attempt_run n candidate fl (Ok (Break (Some exc)))
| attempt_continues fl exc refined :
    failed_attempt candidate fl exc -> n < max_retries ->
    attempt_run n candidate (fl ++ [EvRefine candidate exc (Ok refined)])
      (Ok (Continue refined (n + 1) (Some exc)))
| attempt_raises fl exc x :
    failed_attempt candidate fl exc -> n < max_retries ->
    attempt_run n candidate (fl ++ [EvRefine candidate exc (Raise x)])
      (Raise x).

(** The loop entered with [attempts = n], [last_error] and the current
    candidate. *)
Inductive loop_run
  : Z -> option string -> string -> list Event -> Outcome AgentResponse
    -> Prop :=
| loop_not_entered n last_error candidate :
    n > max_retries ->
    loop_run n last_error candidate []
      (Ok {| sql := candidate; result := None; error := last_error;
             attempts := n; answer := None |})
| loop_succeeded n last_error candidate drv qr txt ans :
    n <= max_retries ->
    query_events candidate [] drv (Ok qr) ->
    loop_run n last_error candidate
      (drv ++ [EvExec candidate (Ok qr); EvAnswer candidate txt (Ok ans)])
      (Ok {| sql := candidate; result := Some qr; error := None;
             attempts := n; answer := Some ans |})
| loop_exhausted n last_error candidate fl exc :
    n = max_retries ->
    failed_attempt candidate fl exc ->
    loop_run n last_error candidate fl
      (Ok {| sql := candidate; result := None; error := Some exc;
             attempts := n; answer := None |})
| loop_refine_raised n last_error candidate fl exc x :
    n < max_retries ->
    failed_attempt candidate fl exc ->
    loop_run n last_error candidate
      (fl ++ [EvRefine candidate exc (Raise x)]) (Raise x)
| loop_retried n last_error candidate fl exc refined tr r :
    n < max_retries ->
    failed_attempt candidate fl exc ->
    loop_run (n + 1) (Some exc) refined tr r ->
    loop_run n last_error candidate
      (fl ++ EvRefine candidate exc (Ok refined) :: tr) r.

Section WithEnv.
Context {W : Type} (E : Env W).
Variables question schema_summary dialect : string.

Lemma attempt_sound (n : Z) (candidate : string) (w : W) :
  exists c w' tr,
    attempt E max_retries question schema_summary dialect n candidate w =
      Some (c, w', tr) /\
    attempt_run n candidate tr c.
Proof.
  unfold attempt, try_except, bind, observe, ret.
  destruct (run_read_only_query_events E candidate None w)
    as (o & w1 & drv & -> & Hq). simpl in Hq.
  destruct o as [qr|exc];
    [destruct (generate_answer_run E question candidate
                 (to_string E (dataframe qr)) w1) as ([ans|exc] & w2 & ->);
     simpl|].
  1: { do 3 eexists. split; [reflexivity|].
       rewrite <- app_assoc. now apply attempt_returns. }
  all: destruct (n >=? max_retries) eqn:Hn;
    [| match goal with
       | |- context [refine_sql_on_error E ?q ?s ?c ?e ?d ?w0] =>
           destruct (refine_sql_on_error_run E q s c e d w0)
             as ([refined|x] & w3 & ->)
       end; simpl ];
    do 3 eexists; (split; [reflexivity|]); rewrite ?app_nil_r;
    first [apply attempt_breaks | apply attempt_continues
          | apply attempt_raises];
    try lia; rewrite <- ?app_assoc; simpl;
    first [now apply failed_answer | now apply failed_execution].
Qed.

Lemma answer_loop_step (fuel : nat) (n : Z) (last_error : option string)
  (candidate : string) :
  answer_loop E max_retries question schema_summary dialect (S fuel) n
    last_error candidate =
  if n <=? max_retries then
    bind (attempt E max_retries question schema_summary dialect n candidate)
      (fun c =>
         match c with
         | Return response => ret response
         | Break last_error' =>
             ret {| sql := candidate; result := None; error := last_error';
                    attempts := n; answer := None |}
         | Continue sql' attempts' last_error' =>
             answer_loop E max_retries question schema_summary dialect fuel
               attempts' last_error' sql'
         end)
  else
    ret {| sql := candidate; result := None; error := last_error;
           attempts := n; answer := None |}.
Proof. reflexivity. Qed.

(** With [max_retries - n + 1] units of fuel or more, the loop entered at
    [attempts = n] ends, and its run is one of [loop_run]. *)
Lemma answer_loop_sound (fuel : nat) :
  forall (n : Z) (last_error : option string) (candidate : string) (w : W),
  (Z.to_nat (max_retries - n + 1) <= fuel)%nat ->
  exists r w' tr,
    answer_loop E max_retries question schema_summary dialect fuel n
      last_error candidate w = Some (r, w', tr) /\
    loop_run n last_error candidate tr r.
Proof.
  induction fuel as [|fuel IH]; intros n last_error candidate w Hfuel.
  - cbn [answer_loop]. destruct (n <=? max_retries) eqn:Hn.
    + apply Z.leb_le in Hn. lia.
    + apply Z.leb_gt in Hn. do 3 eexists. split; [reflexivity|].
      apply loop_not_entered. lia.
  - rewrite answer_loop_step. destruct (n <=? max_retries) eqn:Hn.
    + apply Z.leb_le in Hn. unfold bind.
      destruct (attempt_sound n candidate w)
        as (c & w1 & tr1 & -> & Hat).
      inversion Hat; subst.
      * do 3 eexists. split; [reflexivity|]. rewrite app_nil_r.
        now apply loop_succeeded.
      * do 3 eexists. split; [reflexivity|]. rewrite app_nil_r.
        apply loop_exhausted; [lia | assumption].
      * destruct (IH (n + 1) (Some exc) refined w1)
          as (r & w2 & tr2 & -> & Hl); [lia|].
        do 3 eexists. split; [reflexivity|].
        rewrite <- app_assoc. simpl. now apply loop_retried.
      * do 3 eexists. split; [reflexivity|].
        now apply loop_refine_raised.
    + apply Z.leb_gt in Hn. do 3 eexists. split; [reflexivity|].
      apply loop_not_entered. lia.
Qed.

(** A run that ended keeps its result when more fuel is given. *)
Lemma answer_loop_more_fuel (fuel : nat) :
  forall (n : Z) (last_error : option string) (candidate : string) (w : W) x,
  answer_loop E max_retries question schema_summary dialect fuel n
    last_error candidate w = Some x ->
  answer_loop E max_retries question schema_summary dialect (S fuel) n
    last_error candidate w = Some x.
Proof.
  induction fuel as [|fuel IH]; intros n last_error candidate w x H.
  - cbn [answer_loop] in H. rewrite answer_loop_step.
    destruct (n <=? max_retries); [discriminate H | exact H].
  - rewrite answer_loop_step in H. rewrite answer_loop_step.
    destruct (n <=? max_retries); [|exact H].
    unfold bind in *.
    destruct (attempt E max_retries question schema_summary dialect n
                candidate w) as [[[[c|exc] w1] t1]|]; try exact H.
    destruct c as [response|le'|sql' n' le']; try exact H.
    destruct (answer_loop E max_retries question schema_summary dialect fuel
                n' le' sql' w1) as [y|] eqn:Hf; [|discriminate H].
    now rewrite (IH _ _ _ _ _ Hf).
Qed.

Lemma answer_loop_fuel_mono (fuel fuel' : nat) (n : Z)
  (last_error : option string) (candidate : string) (w : W) x :
  (fuel <= fuel')%nat ->
  answer_loop E max_retries question schema_summary dialect fuel n
    last_error candidate w = Some x ->
  answer_loop E max_retries question schema_summary dialect fuel' n
    last_error candidate w = Some x.
Proof.
  intros Hle H. induction Hle as [|m _ IHle]; [exact H|].
  now apply answer_loop_more_fuel.
Qed.

End WithEnv.
(** ** What every run of the loop satisfies *)

Lemma failed_attempt_counts (candidate : string) (fl : list Event)
  (exc : string) :
  failed_attempt candidate fl exc ->
  exec_attempts fl = 1 /\ refine_calls fl = 0.
Proof.
  unfold exec_attempts, refine_calls.
  intros Hfl. inversion Hfl as [drv e Hq|drv qr txt e Hq]; subst;
    rewrite !count_app,
      (query_events_count is_exec _ _ _ _ driver_not_exec Hq),
      (query_events_count is_refine _ _ _ _ driver_not_refine Hq);
    split; reflexivity.
Qed.

Lemma failed_attempt_no_answer (candidate : string) (fl : list Event)
  (exc : string) (s txt ans : string) :
  failed_attempt candidate fl exc -> ~ In (EvAnswer s txt (Ok ans)) fl.
Proof. intros Hfl Hin. inversion Hfl; subst; in_trace. Qed.

(** The loop makes at most [max_retries - n + 1] executions and at most
    [max_retries - n] refinement calls. *)
Lemma loop_run_bounds n last_error candidate tr r :
  loop_run n last_error candidate tr r ->
  exec_attempts tr <= Z.max 0 (max_retries - n + 1) /\
  refine_calls tr <= Z.max 0 (max_retries - n).
Proof.
  induction 1 as [n le c Hn|n le c drv qr txt ans Hn Hq|n le c fl exc Hn Hfl
                 |n le c fl exc x Hn Hfl|n le c fl exc refined tr r Hn Hfl _ IH].
  - split; cbn; lia.
  - unfold exec_attempts, refine_calls.
    rewrite !count_app,
      (query_events_count is_exec _ _ _ _ driver_not_exec Hq),
      (query_events_count is_refine _ _ _ _ driver_not_refine Hq).
    cbn. lia.
  - destruct (failed_attempt_counts _ _ _ Hfl) as [He Hr]. lia.
  - destruct (failed_attempt_counts _ _ _ Hfl) as [He Hr].
    unfold exec_attempts, refine_calls in *.
    rewrite !count_app, !count_one, He, Hr. cbn [is_exec is_refine]. lia.
  - destruct (failed_attempt_counts _ _ _ Hfl) as [He Hr].
    unfold exec_attempts, refine_calls in *.
    change (fl ++ EvRefine c exc (Ok refined) :: tr)
      with (fl ++ [EvRefine c exc (Ok refined)] ++ tr).
    rewrite !count_app, !count_one, He, Hr. cbn [is_exec is_refine]. lia.
Qed.

(** The [attempts] of a response is the number of the last execution. *)
Lemma loop_run_attempts n last_error candidate tr r :
  loop_run n last_error candidate tr r ->
  forall resp, r = Ok resp -> n <= max_retries ->
  attempts resp = n + exec_attempts tr - 1 /\
  n <= attempts resp <= max_retries.
Proof.
  unfold exec_attempts.
  induction 1 as [n le c Hn|n le c drv qr txt ans Hn Hq|n le c fl exc Hn Hfl
                 |n le c fl exc x Hn Hfl|n le c fl exc refined tr r Hn Hfl _ IH];
    intros resp Hr Hle.
  - lia.
  - injection Hr as <-.
    rewrite !count_app,
      (query_events_count is_exec _ _ _ _ driver_not_exec Hq).
    cbn. lia.
  - injection Hr as <-.
    destruct (failed_attempt_counts _ _ _ Hfl) as [He _].
    unfold exec_attempts in He. rewrite He. cbn. lia.
  - discriminate Hr.
  - destruct (failed_attempt_counts _ _ _ Hfl) as [He _].
    unfold exec_attempts in He.
    change (fl ++ EvRefine c exc (Ok refined) :: tr)
      with (fl ++ [EvRefine c exc (Ok refined)] ++ tr).
    rewrite !count_app, count_one, He. cbn [is_exec].
    destruct (IH resp Hr) as [Ha Hb]; [lia|]. lia.
Qed.

(** A response carries a result and an answer, or an error, never both
    and never neither. *)
Lemma loop_run_response n last_error candidate tr r :
  loop_run n last_error candidate tr r ->
  forall resp, r = Ok resp -> n <= max_retries ->
  (exists qr ans, result resp = Some qr /\ answer resp = Some ans /\
                  error resp = None) \/
  (exists exc, result resp = None /\ answer resp = None /\
               error resp = Some exc /\ attempts resp = max_retries).
Proof.
  induction 1 as [n le c Hn|n le c drv qr txt ans Hn Hq|n le c fl exc Hn Hfl
                 |n le c fl exc x Hn Hfl|n le c fl exc refined tr r Hn Hfl _ IH];
    intros resp Hr Hle.
  - lia.
  - injection Hr as <-. left. now exists qr, ans.
  - injection Hr as <-. right. now exists exc.
  - discriminate Hr.
  - apply IH; [exact Hr | lia].
Qed.

(** After an answer was synthesized nothing else is called, and the run
    returns that answer with the result of the execution just before. *)
Lemma loop_run_stops_on_success n last_error candidate tr r :
  loop_run n last_error candidate tr r ->
  forall pre post s txt ans,
  tr = pre ++ EvAnswer s txt (Ok ans) :: post ->
  post = [] /\
  exists pre' qr,
    pre = pre' ++ [EvExec s (Ok qr)] /\
    r = Ok {| sql := s; result := Some qr; error := None;
              attempts := n + exec_attempts tr - 1; answer := Some ans |}.
Proof.
  induction 1 as [n le c Hn|n le c drv qr txt0 ans0 Hn Hq|n le c fl exc Hn Hfl
                 |n le c fl exc x Hn Hfl|n le c fl exc refined tr r Hn Hfl _ IH];
    intros pre post s txt ans Heq.
  - now destruct pre.
  - change (drv ++ [EvExec c (Ok qr); EvAnswer c txt0 (Ok ans0)])
      with (drv ++ [EvExec c (Ok qr)] ++ [EvAnswer c txt0 (Ok ans0)]) in *.
    rewrite app_assoc in Heq.
    apply split_at_last in Heq as (-> & [= -> -> ->] & ->);
      [|intros Hin; in_trace].
    split; [reflexivity|]. exists drv, qr. split; [reflexivity|].
    unfold exec_attempts.
    rewrite !count_app,
      (query_events_count is_exec _ _ _ _ driver_not_exec Hq).
    cbn. do 2 f_equal. lia.
  - exfalso. apply (failed_attempt_no_answer _ _ _ s txt ans Hfl).
    rewrite Heq. apply in_elt.
  - exfalso.
    assert (Hin : In (EvAnswer s txt (Ok ans))
                     (fl ++ [EvRefine c exc (Raise x)]))
      by (rewrite Heq; apply in_elt).
    apply in_app_or in Hin as [Hin|Hin];
      [now apply (failed_attempt_no_answer _ _ _ s txt ans Hfl) | in_trace].
  - change (fl ++ EvRefine c exc (Ok refined) :: tr)
      with (fl ++ [EvRefine c exc (Ok refined)] ++ tr) in *.
    rewrite app_assoc in Heq.
    apply split_after in Heq as (mid & -> & Htr).
    + destruct (IH _ _ _ _ _ Htr) as (-> & pre' & qr & -> & ->).
      split; [reflexivity|].
      exists ((fl ++ [EvRefine c exc (Ok refined)]) ++ pre'), qr.
      split; [now rewrite <- !app_assoc|].
      destruct (failed_attempt_counts _ _ _ Hfl) as [He _].
      unfold exec_attempts in *.
      rewrite !count_app, count_one, He.
      cbn [is_exec]. do 2 f_equal. lia.
    + intros Hin. apply in_app_or in Hin as [Hin|Hin];
        [now apply (failed_attempt_no_answer _ _ _ s txt ans Hfl) | in_trace].
Qed.

(** When no execution returns and no refinement raises, the loop ends at
    [attempts = max_retries] with the error of the last execution. *)
Lemma loop_run_all_failed n last_error candidate tr r :
  loop_run n last_error candidate tr r ->
  n <= max_retries ->
  (forall s qr, ~ In (EvExec s (Ok qr)) tr) ->
  (forall p e x, ~ In (EvRefine p e (Raise x)) tr) ->
  exists pre s exc,
    tr = pre ++ [EvExec s (Raise exc)] /\
    r = Ok {| sql := s; result := None; error := Some exc;
              attempts := max_retries; answer := None |} /\
    exec_attempts tr = max_retries - n + 1.
Proof.
  induction 1 as [n le c Hn|n le c drv qr txt ans Hn Hq|n le c fl exc Hn Hfl
                 |n le c fl exc x Hn Hfl|n le c fl exc refined tr r Hn Hfl _ IH];
    intros Hle Hexec Hrefine.
  - lia.
  - exfalso. apply (Hexec c qr). apply in_or_app. right. now left.
  - subst n. destruct (failed_attempt_counts _ _ _ Hfl) as [He _].
    inversion Hfl as [drv e Hq|drv qr txt e Hq]; subst.
    + exists drv, c, exc. repeat split. rewrite He. lia.
    + exfalso. apply (Hexec c qr). apply in_or_app. right. now left.
  - exfalso. apply (Hrefine c exc x). apply in_or_app. right. now left.
  - destruct IH as (pre & s & e & -> & -> & Hcount); [lia | | |].
    + intros s qr Hin. apply (Hexec s qr). apply in_or_app. right. now right.
    + intros p e x Hin. apply (Hrefine p e x). apply in_or_app. right.
      now right.
    + exists (fl ++ EvRefine c exc (Ok refined) :: pre), s, e.
      split; [now rewrite <- app_assoc|]. split; [reflexivity|].
      destruct (failed_attempt_counts _ _ _ Hfl) as [He _].
      unfold exec_attempts in *.
      change (fl ++ EvRefine c exc (Ok refined) :: pre ++ [EvExec s (Raise e)])
        with (fl ++ [EvRefine c exc (Ok refined)]
                 ++ (pre ++ [EvExec s (Raise e)])).
      rewrite count_app, count_app, count_one, He, Hcount.
      cbn [is_exec]. lia.
Qed.

Lemma failed_attempt_not_raised (candidate : string) (fl : list Event)
  (exc : string) (ev : Event) :
  failed_attempt candidate fl exc -> In ev fl -> raised_outside_try ev = None.
Proof.
  intros Hfl Hin. inversion Hfl; subst; in_trace; subst;
    try reflexivity; now apply driver_not_raised.
Qed.

(** The loop raises only what a refinement call raised, as its last
    call; and a run in which no refinement raises returns a response. *)
Lemma loop_run_raise n last_error candidate tr r :
  loop_run n last_error candidate tr r ->
  match r with
  | Ok _ => forall ev, In ev tr -> raised_outside_try ev = None
  | Raise x => exists pre p e, tr = pre ++ [EvRefine p e (Raise x)]
  end.
Proof.
  induction 1 as [n le c Hn|n le c drv qr txt ans Hn Hq|n le c fl exc Hn Hfl
                 |n le c fl exc x Hn Hfl|n le c fl exc refined tr r Hn Hfl _ IH].
  - intros ev [].
  - intros ev Hin. in_trace; subst; try reflexivity.
    now apply driver_not_raised.
  - intros ev Hin. exact (failed_attempt_not_raised _ _ _ _ Hfl Hin).
  - now exists fl, c, exc.
  - destruct r as [resp|x].
    + intros ev Hin. apply in_app_or in Hin as [Hin|[<-|Hin]].
      * exact (failed_attempt_not_raised _ _ _ _ Hfl Hin).
      * reflexivity.
      * now apply IH.
    + destruct IH as (pre & p & e & ->).
      exists (fl ++ EvRefine c exc (Ok refined) :: pre), p, e.
      now rewrite <- app_assoc.
Qed.

Lemma failed_attempt_last (candidate : string) (fl : list Event)
  (exc : string) :
  failed_attempt candidate fl exc ->
  exists init ev,
    fl = init ++ [ev] /\ failure_of ev = Some (candidate, exc) /\
    forall x, In x init -> failure_of x = None.
Proof.
  intros Hfl. inversion Hfl as [drv e Hq|drv qr txt e Hq]; subst.
  - exists drv, (EvExec candidate (Raise exc)). repeat split.
    intros x Hin. apply driver_no_failure.
    now apply (query_events_driver _ _ _ _ _ Hq).
  - exists (drv ++ [EvExec candidate (Ok qr)]),
      (EvAnswer candidate txt (Raise exc)).
    split; [now rewrite <- app_assoc|]. split; [reflexivity|].
    intros x Hin. apply in_app_or in Hin as [Hin|[<-|[]]]; [|reflexivity].
    apply driver_no_failure. now apply (query_events_driver _ _ _ _ _ Hq).
Qed.

(** A failed execution or answer synthesis is caught: the next call is the
    refinement of that candidate with that error text, or there is no next
    call and the run returns the failure response with that error. *)
Lemma loop_run_failure_caught n last_error candidate tr r :
  loop_run n last_error candidate tr r ->
  forall pre post ev s e,
  failure_of ev = Some (s, e) ->
  tr = pre ++ ev :: post ->
  (post = [] /\
   r = Ok {| sql := s; result := None; error := Some e;
             attempts := max_retries; answer := None |}) \/
  (exists o post', post = EvRefine s e o :: post').
Proof.
  induction 1 as [n le c Hn|n le c drv qr txt ans Hn Hq|n le c fl exc Hn Hfl
                 |n le c fl exc x Hn Hfl|n le c fl exc refined tr r Hn Hfl _ IH];
    intros pre post ev s e Hf Heq.
  - now destruct pre.
  - exfalso.
    assert (Hin : In ev (drv ++ [EvExec c (Ok qr); EvAnswer c txt (Ok ans)]))
      by (rewrite Heq; apply in_elt).
    in_trace; subst; try discriminate Hf.
    rewrite (driver_no_failure _ Hin) in Hf. discriminate Hf.
  - destruct (failed_attempt_last _ _ _ Hfl) as (init & ev0 & -> & Hf0 & Hinit).
    apply split_at_last in Heq as (-> & -> & ->).
    + left. split; [reflexivity|]. rewrite Hf0 in Hf.
      injection Hf as <- <-. now subst n.
    + intros Hin. rewrite (Hinit _ Hin) in Hf. discriminate Hf.
  - destruct (failed_attempt_last _ _ _ Hfl) as (init & ev0 & -> & Hf0 & Hinit).
    rewrite <- app_assoc in Heq. simpl in Heq.
    apply split_at_or_after in Heq as [(-> & -> & ->)|(mid & -> & Hmid)].
    + right. rewrite Hf0 in Hf. injection Hf as <- <-. eauto.
    + destruct mid as [|z mid]; simpl in Hmid; injection Hmid as Hz Hmid.
      * subst ev. discriminate Hf.
      * now destruct mid.
    + intros Hin. rewrite (Hinit _ Hin) in Hf. discriminate Hf.
  - destruct (failed_attempt_last _ _ _ Hfl) as (init & ev0 & -> & Hf0 & Hinit).
    rewrite <- app_assoc in Heq. simpl in Heq.
    apply split_at_or_after in Heq as [(-> & -> & ->)|(mid & -> & Hmid)].
    + right. rewrite Hf0 in Hf. injection Hf as <- <-. eauto.
    + destruct mid as [|z mid]; simpl in Hmid; injection Hmid as Hz Hmid.
      * subst ev. discriminate Hf.
      * now apply (IH mid post ev s e).
    + intros Hin. rewrite (Hinit _ Hin) in Hf. discriminate Hf.
Qed.

End Runs.

(** ** The runs of [answer_question] *)

Definition catalog_only (sch : list Event) : Prop :=
  Forall (fun ev => is_catalog ev = true) sch.

Inductive question_run (max_retries : Z)
  : list Event -> Outcome AgentResponse -> Prop :=
| schema_raised sch x :
    catalog_only sch ->
    question_run max_retries (sch ++ [EvSchema (Raise x)]) (Raise x)
| generate_raised sch summary x :
    catalog_only sch ->
    question_run max_retries
      (sch ++ [EvSchema (Ok summary); EvGenerate (Raise x)]) (Raise x)
| loop_entered sch summary candidate tr r :
    catalog_only sch ->
    loop_run max_retries 1 None candidate tr r ->
    question_run max_retries
      ((sch ++ [EvSchema (Ok summary); EvGenerate (Ok candidate)]) ++ tr) r.

Section Question.
Context {W : Type} (E : Env W).

Lemma schema_lines_catalog (tables : list string) :
  forall (lines : list string) (w : W) o w' tr,
  schema_lines E tables lines w = Some (o, w', tr) -> catalog_only tr.
Proof.
  induction tables as [|t rest IH]; intros lines w o w' tr.
  - intros [= <- <- <-]. constructor.
  - cbn [schema_lines]. unfold bind, call.
    destruct (get_columns E t w) as [[cols|exc] w1].
    + destruct (schema_lines E rest (lines ++ [table_line t cols]) w1)
        as [[[o2 w2] t2]|] eqn:Hrest; [|discriminate].
      intros [= <- <- <-]. constructor; [reflexivity|].
      exact (IH _ _ _ _ _ Hrest).
    + intros [= <- <- <-]. now repeat constructor.
Qed.

Lemma get_schema_summary_catalog (w : W) :
  exists o w' tr,
    get_schema_summary E w = Some (o, w', tr) /\ catalog_only tr.
Proof.
  destruct (get_schema_summary_run E w) as (o & w' & tr & Hrun & _).
  exists o, w', tr. split; [exact Hrun|]. revert Hrun.
  unfold get_schema_summary, bind, call, ret.
  destruct (get_table_names E w) as [[tables|exc] w1].
  - destruct (schema_lines E tables [] w1) as [[[[ls|exc] w2] t2]|] eqn:Hl;
      [| |discriminate]; intros [= <- <- <-];
      rewrite ?app_nil_r; (constructor; [reflexivity|]);
      exact (schema_lines_catalog _ _ _ _ _ _ Hl).
  - intros [= <- <- <-]. now repeat constructor.
Qed.

Lemma answer_question_fuel_sound (fuel : nat) (max_retries : Z)
  (question : string) (w : W) :
  (Z.to_nat max_retries <= fuel)%nat ->
  exists r w' tr,
    answer_question_fuel E fuel max_retries question w = Some (r, w', tr) /\
    question_run max_retries tr r.
Proof.
  intros Hfuel. unfold answer_question_fuel, bind, observe. cbv zeta.
  change (0 + 1) with 1.
  destruct (get_schema_summary_catalog w) as ([summary|x] & w1 & sch & -> & Hs).
  - destruct (generate_sql_run E question summary (dialect_name E) w1)
      as ([candidate|x] & w2 & ->); simpl.
    + destruct (answer_loop_sound max_retries E question summary
                  (dialect_name E) fuel 1 None candidate w2)
        as (r & w3 & tr & -> & Hl); [lia|].
      do 3 eexists. split; [reflexivity|].
      replace ((sch ++ [EvSchema (Ok summary)])
                 ++ EvGenerate (Ok candidate) :: tr)
        with ((sch ++ [EvSchema (Ok summary); EvGenerate (Ok candidate)])
                ++ tr) by (now rewrite <- !app_assoc).
      now apply loop_entered.
    + do 3 eexists. split; [reflexivity|].
      rewrite <- app_assoc. simpl. now apply generate_raised.
  - do 3 eexists. split; [reflexivity|]. now apply schema_raised.
Qed.

Lemma answer_question_sound (max_retries : Z) (question : string) (w : W) :
  exists r w' tr,
    answer_question E max_retries question w = Some (r, w', tr) /\
    question_run max_retries tr r.
Proof. now apply answer_question_fuel_sound. Qed.

(** The fuel of [answer_question] is enough: any larger fuel gives the
    same run. *)
Lemma answer_question_fuel_enough (fuel : nat) (max_retries : Z)
  (question : string) (w : W) :
  (Z.to_nat max_retries <= fuel)%nat ->
  answer_question_fuel E fuel max_retries question w =
  answer_question E max_retries question w.
Proof.
  intros Hfuel. unfold answer_question, answer_question_fuel, bind.
  cbv zeta. change (0 + 1) with 1.
  destruct (observe EvSchema (get_schema_summary E) w)
    as [[[[summary|x] w1] t1]|]; try reflexivity.
  destruct (observe EvGenerate
              (generate_sql E question summary (dialect_name E)) w1)
    as [[[[candidate|x] w2] t2]|]; try reflexivity.
  destruct (answer_loop_sound max_retries E question summary (dialect_name E)
              (Z.to_nat max_retries) 1 None candidate w2)
    as (r & w3 & tr & Hrun & _); [lia|].
  now rewrite Hrun, (answer_loop_fuel_mono max_retries E question summary
                       (dialect_name E) _ _ _ _ _ _ _ Hfuel Hrun).
Qed.

End Question.

(** ** What every run of [answer_question] satisfies *)

Section QuestionRuns.
Variable max_retries : Z.

Lemma setup_count (p : Event -> bool) (sch : list Event)
  (summary : Outcome string) (candidate : Outcome string) :
  (forall ev, is_catalog ev = true -> p ev = false) ->
  p (EvSchema summary) = false -> p (EvGenerate candidate) = false ->
  catalog_only sch ->
  count p (sch ++ [EvSchema summary; EvGenerate candidate]) = 0.
Proof.
  intros Hp Hs Hg Hsch. rewrite count_app, (catalog_count p sch Hp Hsch).
  unfold count. simpl. now rewrite Hs, Hg.
Qed.

Lemma question_run_bounds tr r :
  question_run max_retries tr r ->
  exec_attempts tr <= Z.max 0 max_retries /\
  refine_calls tr <= Z.max 0 (max_retries - 1).
Proof.
  unfold exec_attempts, refine_calls.
  intros Hrun. inversion Hrun as [sch x Hs|sch summary x Hs
                                 |sch summary candidate ltr r0 Hs Hl]; subst.
  - rewrite !count_app, (catalog_count is_exec sch catalog_not_exec Hs),
      (catalog_count is_refine sch catalog_not_refine Hs). cbn. lia.
  - rewrite !count_app, (catalog_count is_exec sch catalog_not_exec Hs),
      (catalog_count is_refine sch catalog_not_refine Hs). cbn. lia.
  - rewrite (count_app is_exec), (count_app is_refine),
      (setup_count is_exec sch _ _ catalog_not_exec eq_refl eq_refl Hs),
      (setup_count is_refine sch _ _ catalog_not_refine eq_refl eq_refl Hs).
    destruct (loop_run_bounds _ _ _ _ _ _ Hl) as [He Hr].
    unfold exec_attempts, refine_calls in *.
    replace (max_retries - 1 + 1) with max_retries in He by lia. lia.
Qed.

Lemma question_run_attempts tr r resp :
  question_run max_retries tr r -> r = Ok resp -> 1 <= max_retries ->
  attempts resp = exec_attempts tr /\ 1 <= attempts resp <= max_retries.
Proof.
  unfold exec_attempts.
  intros Hrun Hr Hmax. inversion Hrun as [sch x Hs|sch summary x Hs
                                 |sch summary candidate ltr r0 Hs Hl]; subst;
    try discriminate.
  rewrite (count_app is_exec),
    (setup_count is_exec sch _ _ catalog_not_exec eq_refl eq_refl Hs).
  destruct (loop_run_attempts _ _ _ _ _ _ Hl _ eq_refl Hmax) as [Ha Hb].
  unfold exec_attempts in Ha. lia.
Qed.

Lemma question_run_response tr resp :
  question_run max_retries tr (Ok resp) -> 1 <= max_retries ->
  (exists qr ans, result resp = Some qr /\ answer resp = Some ans /\
                  error resp = None) \/
  (exists exc, result resp = None /\ answer resp = None /\
               error resp = Some exc /\ attempts resp = max_retries).
Proof.
  intros Hrun Hmax. inversion Hrun as [| |sch summary candidate ltr r0 Hs Hl];
    subst.
  exact (loop_run_response _ _ _ _ _ _ Hl _ eq_refl Hmax).
Qed.

Lemma question_run_stops tr r :
  question_run max_retries tr r ->
  forall pre post s txt ans,
  tr = pre ++ EvAnswer s txt (Ok ans) :: post ->
  post = [] /\
  exists pre' qr,
    pre = pre' ++ [EvExec s (Ok qr)] /\
    r = Ok {| sql := s; result := Some qr; error := None;
              attempts := exec_attempts tr; answer := Some ans |}.
Proof.
  intros Hrun.
  inversion Hrun as [sch x Hs|sch summary x Hs
                    |sch summary candidate ltr r0 Hs Hl]; subst;
    unfold catalog_only in Hs; intros pre post s txt ans Heq.
  - exfalso.
    assert (Hin : In (EvAnswer s txt (Ok ans)) (sch ++ [EvSchema (Raise x)]))
      by (rewrite Heq; apply in_elt).
    in_trace.
  - exfalso.
    assert (Hin : In (EvAnswer s txt (Ok ans))
                     (sch ++ [EvSchema (Ok summary); EvGenerate (Raise x)]))
      by (rewrite Heq; apply in_elt).
    in_trace.
  - apply split_after in Heq as (mid & -> & Hmid); [|intros Hin; in_trace].
    destruct (loop_run_stops_on_success _ _ _ _ _ _ Hl _ _ _ _ _ Hmid)
      as (-> & pre' & qr & -> & ->).
    split; [reflexivity|].
    exists ((sch ++ [EvSchema (Ok summary); EvGenerate (Ok candidate)])
              ++ pre'), qr.
    split; [now rewrite <- !app_assoc|].
    unfold exec_attempts. rewrite (count_app is_exec),
      (setup_count is_exec sch _ _ catalog_not_exec eq_refl eq_refl Hs).
    do 2 f_equal. lia.
Qed.

Lemma question_run_all_failed tr r :
  question_run max_retries tr r -> 1 <= max_retries ->
  (forall ev, In ev tr -> raised_outside_try ev = None) ->
  (forall s qr, ~ In (EvExec s (Ok qr)) tr) ->
  exists pre s exc,
    tr = pre ++ [EvExec s (Raise exc)] /\
    r = Ok {| sql := s; result := None; error := Some exc;
              attempts := max_retries; answer := None |} /\
    exec_attempts tr = max_retries.
Proof.
  intros Hrun Hmax Hout Hexec.
  inversion Hrun as [sch x Hs|sch summary x Hs
                    |sch summary candidate ltr r0 Hs Hl]; subst.
  - exfalso. specialize (Hout (EvSchema (Raise x))).
    discriminate Hout. apply in_or_app. right. now left.
  - exfalso. specialize (Hout (EvGenerate (Raise x))).
    discriminate Hout. apply in_or_app. right. right. now left.
  - destruct (loop_run_all_failed _ _ _ _ _ _ Hl Hmax) as (pre & s & exc & -> & -> & Hc).
    + intros s qr Hin. apply (Hexec s qr). apply in_or_app. now right.
    + intros p e x Hin. specialize (Hout (EvRefine p e (Raise x))).
      discriminate Hout. apply in_or_app. now right.
    + exists ((sch ++ [EvSchema (Ok summary); EvGenerate (Ok candidate)])
                ++ pre), s, exc.
      split; [now rewrite <- !app_assoc|]. split; [reflexivity|].
      unfold exec_attempts in *. rewrite (count_app is_exec),
        (setup_count is_exec sch _ _ catalog_not_exec eq_refl eq_refl Hs).
      lia.
Qed.

Lemma question_run_raise tr r :
  question_run max_retries tr r ->
  match r with
  | Ok _ => forall ev, In ev tr -> raised_outside_try ev = None
  | Raise x => exists pre ev, tr = pre ++ [ev] /\ raised_outside_try ev = Some x
  end.
Proof.
  intros Hrun.
  inversion Hrun as [sch x Hs|sch summary x Hs
                    |sch summary candidate ltr r0 Hs Hl]; subst.
  - now exists sch, (EvSchema (Raise x)).
  - exists (sch ++ [EvSchema (Ok summary)]), (EvGenerate (Raise x)).
    now rewrite <- app_assoc.
  - pose proof (loop_run_raise _ _ _ _ _ _ Hl) as Hr. destruct r as [resp|x].
    + intros ev Hin. unfold catalog_only in Hs.
      apply in_app_or in Hin as [Hin|Hin].
      * apply in_app_or in Hin as [Hin|[<-|[<-|[]]]]; try reflexivity.
        apply catalog_not_raised.
        now apply (proj1 (Forall_forall _ _) Hs).
      * now apply Hr.
    + destruct Hr as (pre & p & e & ->).
      exists ((sch ++ [EvSchema (Ok summary); EvGenerate (Ok candidate)])
                ++ pre), (EvRefine p e (Raise x)).
      now rewrite <- !app_assoc.
Qed.

Lemma question_run_failure_caught tr r :
  question_run max_retries tr r ->
  forall pre post ev s e,
  failure_of ev = Some (s, e) ->
  tr = pre ++ ev :: post ->
  (post = [] /\
   r = Ok {| sql := s; result := None; error := Some e;
             attempts := max_retries; answer := None |}) \/
  (exists o post', post = EvRefine s e o :: post').
Proof.
  intros Hrun.
  inversion Hrun as [sch x Hs|sch summary x Hs
                    |sch summary candidate ltr r0 Hs Hl]; subst;
    intros pre post ev s e Hf Heq;
    assert (Hsetup : forall l, catalog_only l ->
              forall o1 o2, ~ In ev (l ++ [EvSchema o1; EvGenerate o2]))
      by (intros l Hcat o1 o2 Hin; unfold catalog_only in Hcat; in_trace;
          subst; try discriminate Hf;
          rewrite (catalog_no_failure _ Hin) in Hf; discriminate Hf).
  - exfalso. unfold catalog_only in Hs.
    assert (Hin : In ev (sch ++ [EvSchema (Raise x)]))
      by (rewrite Heq; apply in_elt).
    in_trace; subst; try discriminate Hf.
    rewrite (catalog_no_failure _ Hin) in Hf. discriminate Hf.
  - exfalso. apply (Hsetup sch Hs (Ok summary) (Raise x)).
    rewrite Heq. apply in_elt.
  - apply split_after in Heq as (mid & -> & Hmid); [|now apply Hsetup].
    exact (loop_run_failure_caught _ _ _ _ _ _ Hl _ _ _ _ _ Hf Hmid).
Qed.

End QuestionRuns.

End AgentFacts.
(* ================================================================== *)
(** * The retry protocol of [answer_question] *)
(* ================================================================== *)

Module AgentClaims.
Import PyStr DbManager Effects Database LLMEngine Agent Scripted.
Import DatabaseFacts AgentFacts.
Local Open Scope string_scope.
Local Open Scope list_scope.
Local Open Scope Z_scope.

Definition the_question : string := "total orders by user".

Section WithEnv.
Context {W : Type} (E : Env W).

(** C1, as the code has it.  With [max_retries >= 1], every run of
    [answer_question] ends, whatever the collaborators do, after at most
    [max_retries] calls of [run_read_only_query] and at most
    [max_retries - 1] refinement calls.  On the first pass in which the
    execution returns and the answer synthesis returns too, the run stops
    there: nothing is called after that answer, and the response has
    [error = None], that execution's [QueryResult], that answer, and
    [attempts] equal to the number of executions made. *)
Theorem answer_question_bounded (max_retries : Z) (question : string) (w : W) :
  1 <= max_retries ->
  exists r w' tr,
    answer_question E max_retries question w = Some (r, w', tr) /\
    exec_attempts tr <= max_retries /\
    refine_calls tr <= max_retries - 1 /\
    forall pre post s s' qr txt ans,
      tr = pre ++ EvExec s (Ok qr) :: EvAnswer s' txt (Ok ans) :: post ->
      post = [] /\
      r = Ok {| sql := s; result := Some qr; error := None;
                attempts := exec_attempts tr; answer := Some ans |}.
Proof.
  intros Hmax.
  destruct (answer_question_sound E max_retries question w)
    as (r & w' & tr & Hrun & Hq).
  exists r, w', tr. split; [exact Hrun|].
  destruct (question_run_bounds _ _ _ Hq) as [He Hr].
  split; [lia|]. split; [lia|].
  intros pre post s s' qr txt ans Heq.
  change (pre ++ EvExec s (Ok qr) :: EvAnswer s' txt (Ok ans) :: post)
    with (pre ++ [EvExec s (Ok qr)] ++ EvAnswer s' txt (Ok ans) :: post)
    in Heq.
  rewrite app_assoc in Heq.
  destruct (question_run_stops _ _ _ Hq _ _ _ _ _ Heq)
    as (Hpost & pre' & qr' & Hpre & Hresp).
  apply app_inj_tail in Hpre as [_ [= <- <-]].
  now split.
Qed.

(** C2, as the code has it.  With [max_retries >= 1], in a run where the
    schema summary, the generation and every refinement call return and
    every execution fails, exactly [max_retries] executions are made; the
    last call of the run is the last execution, and the response carries
    that execution's error text and candidate, no result, no answer, and
    [attempts = max_retries]. *)
Theorem answer_question_exhausted (max_retries : Z) (question : string)
  (w w' : W) (r : Outcome AgentResponse) (tr : list Event) :
  1 <= max_retries ->
  answer_question E max_retries question w = Some (r, w', tr) ->
  (forall ev, In ev tr -> raised_outside_try ev = None) ->
  (forall s qr, ~ In (EvExec s (Ok qr)) tr) ->
  exists pre s exc,
    tr = pre ++ [EvExec s (Raise exc)] /\
    r = Ok {| sql := s; result := None; error := Some exc;
              attempts := max_retries; answer := None |} /\
    exec_attempts tr = max_retries.
Proof.
  intros Hmax Hrun Hout Hexec.
  destruct (answer_question_sound E max_retries question w)
    as (r0 & w0 & tr0 & Hrun0 & Hq).
  rewrite Hrun in Hrun0. injection Hrun0 as <- <- <-.
  exact (question_run_all_failed _ _ _ Hq Hmax Hout Hexec).
Qed.

(** C3, as the code has it.  Every run of [answer_question] ends, for
    every [max_retries], with the same outcome for any larger fuel, after
    at most [max_retries] executions and [max_retries - 1] refinement
    calls (none when these are negative).  With [max_retries >= 1] the
    [attempts] of the response lies between 1 and [max_retries].  Nothing
    is called after a pass whose execution and answer synthesis both
    returned. *)
Theorem answer_question_terminates (max_retries : Z) (question : string)
  (w : W) :
  exists r w' tr,
    answer_question E max_retries question w = Some (r, w', tr) /\
    (forall fuel, (Z.to_nat max_retries <= fuel)%nat ->
       answer_question_fuel E fuel max_retries question w =
         Some (r, w', tr)) /\
    exec_attempts tr <= Z.max 0 max_retries /\
    refine_calls tr <= Z.max 0 (max_retries - 1) /\
    (1 <= max_retries ->
     forall resp, r = Ok resp -> 1 <= attempts resp <= max_retries) /\
    (forall pre post s txt ans,
       tr = pre ++ EvAnswer s txt (Ok ans) :: post ->
       post = [] /\ exists pre' qr, pre = pre' ++ [EvExec s (Ok qr)]).
Proof.
  destruct (answer_question_sound E max_retries question w)
    as (r & w' & tr & Hrun & Hq).
  exists r, w', tr. split; [exact Hrun|]. split.
  { intros fuel Hfuel. now rewrite answer_question_fuel_enough. }
  destruct (question_run_bounds _ _ _ Hq) as [He Hr].
  split; [exact He|]. split; [exact Hr|]. split.
  - intros Hmax resp Hresp.
    now destruct (question_run_attempts _ _ _ resp Hq Hresp Hmax).
  - intros pre post s txt ans Heq.
    destruct (question_run_stops _ _ _ Hq _ _ _ _ _ Heq)
      as (Hpost & pre' & qr & Hpre & _).
    split; [exact Hpost | now exists pre', qr].
Qed.

(** C8, as the code has it.  Only the execution and the answer synthesis
    are inside the [try].  A failure of either is caught: it is followed
    by the refinement call for that candidate and error text, or it is the
    last call and the run returns the failure response with that error.
    The schema summary, the first generation and the refinement are called
    outside the [try]: a run raises exactly when its last call is one of
    these and raised, and it raises that exception; a run in which none of
    them raises returns a response. *)
Theorem answer_question_caught_failures (max_retries : Z) (question : string)
  (w : W) :
  exists r w' tr,
    answer_question E max_retries question w = Some (r, w', tr) /\
    match r with
    | Ok _ => forall ev, In ev tr -> raised_outside_try ev = None
    | Raise x =>
        exists pre ev, tr = pre ++ [ev] /\ raised_outside_try ev = Some x
    end /\
    forall pre post ev s e,
      failure_of ev = Some (s, e) ->
      tr = pre ++ ev :: post ->
      (post = [] /\
       r = Ok {| sql := s; result := None; error := Some e;
                 attempts := max_retries; answer := None |}) \/
      (exists o post', post = EvRefine s e o :: post').
Proof.
  destruct (answer_question_sound E max_retries question w)
    as (r & w' & tr & Hrun & Hq).
  exists r, w', tr. split; [exact Hrun|]. split.
  - exact (question_run_raise _ _ _ Hq).
  - exact (question_run_failure_caught _ _ _ Hq).
Qed.

(** C10.  With [max_retries >= 1], a response returned by
    [answer_question] has exactly one of [result] and [error] equal to
    [None], and its [answer] is not [None] exactly when its [result] is
    not: a failure response carries neither a result nor an answer. *)
Theorem answer_question_result_xor_error (max_retries : Z)
  (question : string) (w w' : W) (resp : AgentResponse) (tr : list Event) :
  1 <= max_retries ->
  answer_question E max_retries question w = Some (Ok resp, w', tr) ->
  (result resp = None <-> error resp <> None) /\
  (answer resp <> None <-> result resp <> None).
Proof.
  intros Hmax Hrun.
  destruct (answer_question_sound E max_retries question w)
    as (r0 & w0 & tr0 & Hrun0 & Hq).
  rewrite Hrun in Hrun0. injection Hrun0 as <- <- <-.
  destruct (question_run_response _ _ _ Hq Hmax)
    as [(qr & ans & -> & -> & ->)|(exc & -> & -> & -> & _)];
    split; split; intros H; try discriminate; try congruence.
Qed.

End WithEnv.

(** ** The protocol on the scripted runs *)

Ltac run_script := vm_compute; reflexivity.

Ltac each_event H :=
  simpl in H;
  repeat (destruct H as [H|H];
          [first [subst; reflexivity | discriminate H]|]);
  contradiction H.

(** C1 on the scenario where the first candidate fails and the refined
    one runs: two executions, one refinement, [attempts = 2]. *)
Lemma answer_question_bounded_witness :
  exists r w' tr,
    answer_question script_env 3 the_question retry_succeeds =
      Some (r, w', tr) /\
    exec_attempts tr <= 3 /\ refine_calls tr <= 3 - 1 /\
    exists resp, r = Ok resp /\ attempts resp = 2 /\ error resp = None.
Proof.
  destruct (answer_question_bounded script_env 3 the_question retry_succeeds)
    as (r & w' & tr & Hrun & He & Hr & _); [lia|].
  exists r, w', tr. repeat (split; [assumption|]).
  vm_compute in Hrun. injection Hrun as <- _ _.
  eexists. repeat split.
Defined.

(** C1 as stated fails twice.  When the first execution returns rows and
    the answer synthesis raises, the run does not stop there: a refinement
    and a second execution follow.  With [max_retries = 0] no refinement
    is made, which is more than [max_retries - 1]. *)
Lemma answer_question_retries_after_execution :
  (exists w' tr resp first second qr,
     answer_question script_env 3 the_question answer_fails_once =
       Some (Ok resp, w', tr) /\
     filter is_exec tr = [EvExec first (Ok qr); EvExec second (Ok qr)] /\
     first <> second /\
     refine_calls tr = 1 /\ attempts resp = 2) /\
  (exists w' tr resp,
     answer_question script_env 0 the_question retry_succeeds =
       Some (Ok resp, w', tr) /\
     refine_calls tr = 0 /\ ~ refine_calls tr <= 0 - 1).
Proof.
  split.
  - do 6 eexists. split; [run_script|].
    split; [reflexivity|]. split; [discriminate|]. split; reflexivity.
  - do 3 eexists. split; [run_script|]. split; [reflexivity|].
    vm_compute. intros H. now apply H.
Qed.

(** C2 on three failing candidates with [max_retries = 3]: [attempts = 3]
    and the error is the third one. *)
Lemma answer_question_exhausted_witness :
  exists r w' tr,
    answer_question script_env 3 the_question all_fail = Some (r, w', tr) /\
    r = Ok {| sql := "SELECT FROM orders"; result := None;
              error := Some "near FROM: syntax error"; attempts := 3;
              answer := None |} /\
    exists pre s exc,
      tr = pre ++ [EvExec s (Raise exc)] /\
      r = Ok {| sql := s; result := None; error := Some exc;
                attempts := 3; answer := None |} /\
      exec_attempts tr = 3.
Proof.
  do 3 eexists. split; [run_script|]. split; [reflexivity|].
  eapply (answer_question_exhausted script_env 3 the_question all_fail).
  - lia.
  - run_script.
  - intros ev H. each_event H.
  - intros s qr H. each_event H.
Defined.

(** C2 as stated fails twice.  When the only execution fails and the
    refinement call raises, no response is returned at all.  With
    [max_retries = 0] no execution is made, and the response has
    [attempts = 1] and no error. *)
Lemma answer_question_exhausted_needs_refinement :
  (exists w' tr,
     answer_question script_env 3 the_question refine_fails =
       Some (Raise "401 unauthorized", w', tr) /\
     filter is_exec tr =
       [EvExec "SELECT * FROM order" (Raise "no such table: order")]) /\
  (exists w' tr resp,
     answer_question script_env 0 the_question all_fail =
       Some (Ok resp, w', tr) /\
     exec_attempts tr = 0 /\ attempts resp = 1 /\ error resp = None).
Proof.
  split.
  - do 2 eexists. split; [run_script | reflexivity].
  - do 3 eexists. split; [run_script|]. repeat split.
Qed.

(** C3 on the retry scenario: the run ends and [attempts] is within
    bounds. *)
Lemma answer_question_terminates_witness :
  exists r w' tr,
    answer_question script_env 3 the_question retry_succeeds =
      Some (r, w', tr) /\
    forall resp, r = Ok resp -> 1 <= attempts resp <= 3.
Proof.
  destruct (answer_question_terminates script_env 3 the_question
              retry_succeeds)
    as (r & w' & tr & Hrun & _ & _ & _ & Hattempts & _).
  exists r, w', tr. split; [exact Hrun|]. apply Hattempts. lia.
Defined.

(** C3 as stated fails twice.  With [max_retries = 0] the response has
    [attempts = 1], above the configured maximum.  And the loop does go on
    after a successful execution when the answer synthesis raises. *)
Lemma answer_question_attempts_above_zero_budget :
  (exists w' tr resp,
     answer_question script_env 0 the_question retry_succeeds =
       Some (Ok resp, w', tr) /\
     attempts resp = 1 /\ ~ attempts resp <= 0) /\
  (exists w' tr resp qr,
     answer_question script_env 3 the_question answer_fails_once =
       Some (Ok resp, w', tr) /\
     nth_error (filter is_exec tr) 0 =
       Some (EvExec
         "SELECT user_id, count(*) AS n FROM orders GROUP BY user_id"
         (Ok qr)) /\
     exec_attempts tr = 2 /\ refine_calls tr = 1).
Proof.
  split.
  - do 3 eexists. split; [run_script|]. split; [reflexivity|].
    vm_compute. intros H. now apply H.
  - do 4 eexists. split; [run_script|]. repeat split.
Qed.

(** C8 on a run whose execution fails once: the failure is followed by
    the refinement call that carries its error text. *)
Lemma answer_question_caught_failures_witness :
  exists r w' tr,
    answer_question script_env 3 the_question retry_succeeds =
      Some (r, w', tr) /\
    forall pre post s e,
      tr = pre ++ EvExec s (Raise e) :: post ->
      (post = [] /\
       r = Ok {| sql := s; result := None; error := Some e;
                 attempts := 3; answer := None |}) \/
      (exists o post', post = EvRefine s e o :: post').
Proof.
  destruct (answer_question_caught_failures script_env 3 the_question
              retry_succeeds) as (r & w' & tr & Hrun & _ & Hcaught).
  exists r, w', tr. split; [exact Hrun|].
  intros pre post s e Heq.
  exact (Hcaught pre post (EvExec s (Raise e)) s e eq_refl Heq).
Defined.

(** C8 as stated fails: what the schema summary, the first generation or a
    refinement raises leaves [answer_question] as an exception. *)
Lemma answer_question_raises :
  (exists w' tr,
     answer_question script_env 3 the_question
       {| catalog := Raise "connection lost"; connects := [];
          executes := []; generations := []; refinements := [];
          answers := [] |} = Some (Raise "connection lost", w', tr)) /\
  (exists w' tr,
     answer_question script_env 3 the_question generate_fails =
       Some (Raise "401 unauthorized", w', tr)) /\
  (exists w' tr,
     answer_question script_env 3 the_question refine_fails =
       Some (Raise "401 unauthorized", w', tr)).
Proof. repeat split; do 2 eexists; run_script. Qed.

(** C10 on a failure response and on a success response. *)
Lemma answer_question_result_xor_error_witness :
  (exists resp w' tr,
     answer_question script_env 3 the_question all_fail =
       Some (Ok resp, w', tr) /\
     (result resp = None <-> error resp <> None) /\
     (answer resp <> None <-> result resp <> None)) /\
  (exists resp w' tr,
     answer_question script_env 3 the_question retry_succeeds =
       Some (Ok resp, w', tr) /\
     (result resp = None <-> error resp <> None) /\
     (answer resp <> None <-> result resp <> None)).
Proof.
  split; do 3 eexists; (split; [run_script|]).
  - eapply (answer_question_result_xor_error script_env 3 the_question
              all_fail); [lia | run_script].
  - eapply (answer_question_result_xor_error script_env 3 the_question
              retry_succeeds); [lia | run_script].
Defined.

End AgentClaims.

(* ================================================================== *)
(** * More on the read-only guard *)
(* ================================================================== *)

Module GuardExtras.
Import PyStr DbManager PyStrFacts.
Local Open Scope string_scope.

(** ** Searching across whitespace *)









(** ** Upper case *)






Lemma no_space_upper (s : string) : no_space (upper s) = no_space s.
Proof.
  induction s as [|c s IH]; [reflexivity|].
  cbn [upper map_chars no_space]. fold (upper s).
  now rewrite is_space_upper_char, IH.
Qed.


(** ** The verdict of the guard *)













End GuardExtras.

(* ================================================================== *)
(** * More on the database identifier *)
(* ================================================================== *)

Module UriExtras.
Import PyStr DbManager AppCore PyStrFacts GuardFacts.
Local Open Scope string_scope.


Definition has_scheme (uri : string) : bool :=
  contains "://" uri || startswith (lower uri) "sqlite:".

Lemma normalize_db_uri_unfold (x : string) :
  normalize_db_uri x =
  if contains "://" (strip x) then strip x
  else if startswith (lower (strip x)) "sqlite:" then strip x
  else "sqlite:///" ++ strip x.
Proof.
  unfold normalize_db_uri, build_sqlite_uri_from_path. cbv zeta.
  now rewrite strip_idem.
Qed.










Lemma normalize_db_uri_scheme (x : string) :
  has_scheme (normalize_db_uri x) = true.
Proof.
  unfold has_scheme. rewrite normalize_db_uri_unfold.
  destruct (contains "://" (strip x)) eqn:Hurl;
    [|destruct (startswith (lower (strip x)) "sqlite:") eqn:Hsq].
  - now rewrite Hurl.
  - rewrite Hsq. apply orb_true_r.
  - now rewrite sqlite_prefix_contains.
Qed.





End UriExtras.

(* ================================================================== *)
(** * More on the schema summarizer *)
(* ================================================================== *)

Module DatabaseExtras.
Import PyStr DbManager Effects Database Scripted DatabaseFacts.
Local Open Scope string_scope.
Local Open Scope list_scope.

Section WithEnv.
Context {W : Type} (E : Env W).

Lemma schema_lines_raise (tables : list string) :
  forall (lines : list string) (w w' : W) (tr : list Event) (x : string),
  schema_lines E tables lines w = Some (Raise x, w', tr) ->
  exists described t rest,
    tables = map fst described ++ t :: rest /\
    tr = map columns_event described ++ [EvColumns t (Raise x)].
Proof.
  induction tables as [|t rest IH]; intros lines w w' tr x.
  - discriminate.
  - cbn [schema_lines]. unfold bind, call.
    destruct (get_columns E t w) as [[cols|exc] w1].
    + destruct (schema_lines E rest (lines ++ [table_line t cols]) w1)
        as [[[[ls|exc] w2] t2]|] eqn:Hrest; try discriminate.
      intros [= <- <- <-].
      destruct (IH _ _ _ _ _ Hrest) as (described & t' & rest' & -> & ->).
      now exists ((t, cols) :: described), t', rest'.
    + intros [= <- <- <-]. now exists [], t, rest.
Qed.

(** X9.  [get_schema_summary] stops at the first catalog call that
    raises and raises that error: either the table names could not be
    read and no column was asked for, or the columns of the tables before
    the failing one were read, in order, and no table after it was
    inspected. *)
Theorem get_schema_summary_first_failure (w w' : W) (tr : list Event)
  (x : string) :
  get_schema_summary E w = Some (Raise x, w', tr) ->
  tr = [EvTableNames (Raise x)] \/
  exists described t rest,
    tr = EvTableNames (Ok (map fst described ++ t :: rest))
           :: map columns_event described ++ [EvColumns t (Raise x)].
Proof.
  unfold get_schema_summary, bind, call, ret.
  destruct (get_table_names E w) as [[tables|exc] w1].
  - destruct (schema_lines E tables [] w1)
      as [[[[ls|exc] w2] t2]|] eqn:Hl; try discriminate.
    intros [= <- <- <-]. right.
    destruct (schema_lines_raise _ _ _ _ _ _ Hl)
      as (described & t & rest & -> & ->).
    now exists described, t, rest.
  - intros [= <- <- <-]. now left.
Qed.

End WithEnv.

(** A catalog that lists a table whose columns cannot be read. *)
Definition broken_catalog_env : Env unit := {|
  get_table_names := fun w => (Ok ["users"; "orders"; "items"], w);
  get_columns := fun table_name w =>
    (if String.eqb table_name "orders" then Raise "permission denied"
     else Ok [{| col_name := "id"; col_type := "INTEGER" |}], w);
  dialect_name := "sqlite";
  connect := fun w => (Ok tt, w);
  execute := fun _ _ w => (Raise "not used", w);
  to_string := fun _ => "";
  base_chain := fun _ _ _ w => (Raise "not used", w);
  error_chain := fun _ _ _ _ _ w => (Raise "not used", w);
  answer_chain := fun _ _ _ w => (Raise "not used", w)
|}.

Lemma get_schema_summary_first_failure_witness :
  exists tr,
    get_schema_summary broken_catalog_env tt =
      Some (Raise "permission denied", tt, tr) /\
    (tr = [EvTableNames (Raise "permission denied")] \/
     exists described t rest,
       tr = EvTableNames (Ok (map fst described ++ t :: rest))
              :: map columns_event described
              ++ [EvColumns t (Raise "permission denied")]).
Proof.
  eexists. split; [vm_compute; reflexivity|].
  apply (get_schema_summary_first_failure broken_catalog_env tt tt).
  vm_compute. reflexivity.
Defined.

End DatabaseExtras.

(* ================================================================== *)
(** * More on the self-correcting loop *)
(* ================================================================== *)

Module AgentExtras.
Import PyStr DbManager Effects Database LLMEngine Agent Scripted.
Import DatabaseFacts AgentFacts AgentClaims.
Local Open Scope string_scope.
Local Open Scope list_scope.
Local Open Scope Z_scope.

Definition is_send (ev : Event) : bool :=
  match ev with EvSend _ _ _ => true | _ => false end.

Definition is_answer (ev : Event) : bool :=
  match ev with EvAnswer _ _ _ => true | _ => false end.

(** The calls of the model: generation, refinement, answer synthesis. *)
Definition is_model_call (ev : Event) : bool :=
  match ev with
  | EvGenerate _ | EvRefine _ _ _ | EvAnswer _ _ _ => true
  | _ => false
  end.

Definition is_inspection (ev : Event) : bool :=
  match ev with EvTableNames _ => true | _ => false end.

(** ** One execution *)

Lemma query_events_send (sql : string) (params : Params)
  (drv : list Event) (o : Outcome QueryResult) (stmt : string) (p : Params)
  (r : Outcome (list string * list Row)) :
  query_events sql params drv o -> In (EvSend stmt p r) drv ->
  stmt = sql /\ p = params /\ is_read_only_sql sql = true.
Proof.
  intros Hq Hin. inversion Hq; subst; simpl in Hin;
    repeat (destruct Hin as [Hin|Hin]; try discriminate Hin);
    try contradiction; injection Hin as <- <- <-; now repeat split.
Qed.

Lemma query_events_counts (sql : string) (params : Params)
  (drv : list Event) (o : Outcome QueryResult) :
  query_events sql params drv o ->
  0 <= count is_send drv <= 1 /\ count is_model_call drv = 0 /\
  count is_answer drv = 0.
Proof. intros Hq. inversion Hq; subst; cbn; lia. Qed.


Section Runs.
Variable max_retries : Z.

Lemma failed_attempt_events (c : string) (fl : list Event) (exc : string) :
  failed_attempt c fl exc ->
  exists drv o,
    query_events c [] drv o /\
    (fl = drv ++ [EvExec c o] /\ o = Raise exc \/
     exists qr txt, o = Ok qr /\
       fl = drv ++ [EvExec c (Ok qr); EvAnswer c txt (Raise exc)]).
Proof.
  intros Hfl. inversion Hfl as [drv e Hq|drv qr txt e Hq]; subst.
  - exists drv, (Raise exc). split; [exact Hq | now left].
  - exists drv, (Ok qr). split; [exact Hq|]. right. now exists qr, txt.
Qed.

Lemma failed_attempt_send (c : string) (fl : list Event) (exc : string)
  (stmt : string) (p : Params) (r : Outcome (list string * list Row)) :
  failed_attempt c fl exc -> In (EvSend stmt p r) fl ->
  stmt = c /\ p = [] /\ is_read_only_sql c = true /\
  exists o, In (EvExec c o) fl.
Proof.
  intros Hfl Hin.
  destruct (failed_attempt_events c fl exc Hfl)
    as (drv & o & Hq & [[-> _]|(qr & txt & _ & ->)]);
    apply in_app_or in Hin as [Hin|Hin];
    try (simpl in Hin;
         repeat (destruct Hin as [Hin|Hin]; try discriminate Hin);
         contradiction);
    destruct (query_events_send _ _ _ _ _ _ _ Hq Hin) as (-> & -> & G);
    repeat split; try assumption; eexists; apply in_or_app; right; now left.
Qed.

Lemma failed_attempt_more_counts (c : string) (fl : list Event)
  (exc : string) :
  failed_attempt c fl exc ->
  0 <= count is_send fl <= 1 /\ 0 <= count is_answer fl <= 1 /\
  count is_model_call fl = count is_answer fl.
Proof.
  intros Hfl.
  destruct (failed_attempt_events c fl exc Hfl)
    as (drv & o & Hq & [[-> _]|(qr & txt & _ & ->)]);
    destruct (query_events_counts _ _ _ _ Hq) as (Hs & Hm & Ha);
    rewrite !count_app, Hm, Ha; cbn; lia.
Qed.

(** Every statement sent is the candidate of an execution of the run and
    passed the guard. *)
Lemma loop_run_sends n last_error candidate tr r :
  loop_run max_retries n last_error candidate tr r ->
  forall stmt p o, In (EvSend stmt p o) tr ->
  is_read_only_sql stmt = true /\ p = [] /\ exists o', In (EvExec stmt o') tr.
Proof.
  induction 1 as [n le c Hn|n le c drv qr txt ans Hn Hq|n le c fl exc Hn Hfl
                 |n le c fl exc x Hn Hfl|n le c fl exc refined tr r Hn Hfl _ IH];
    intros stmt p o Hin.
  - contradiction.
  - apply in_app_or in Hin as [Hin|Hin].
    + destruct (query_events_send _ _ _ _ _ _ _ Hq Hin) as (-> & -> & G).
      repeat split; try assumption.
      eexists. apply in_or_app. right. now left.
    + simpl in Hin.
      repeat (destruct Hin as [Hin|Hin]; try discriminate Hin). contradiction.
  - destruct (failed_attempt_send _ _ _ _ _ _ Hfl Hin) as (-> & -> & G & He).
    now repeat split.
  - apply in_app_or in Hin as [Hin|[Hin|[]]]; [|discriminate Hin].
    destruct (failed_attempt_send _ _ _ _ _ _ Hfl Hin)
      as (-> & -> & G & o' & He).
    repeat split; try assumption. exists o'. apply in_or_app. now left.
  - apply in_app_or in Hin as [Hin|[Hin|Hin]]; [|discriminate Hin|].
    + destruct (failed_attempt_send _ _ _ _ _ _ Hfl Hin)
        as (-> & -> & G & o' & He).
      repeat split; try assumption. exists o'. apply in_or_app. now left.
    + destruct (IH _ _ _ Hin) as (G & -> & o' & He).
      repeat split; try assumption. exists o'. apply in_or_app. right.
      now right.
Qed.

(** Counting the calls of the loop. *)
Lemma loop_run_counts n last_error candidate tr r :
  loop_run max_retries n last_error candidate tr r ->
  n <= max_retries ->
  count is_send tr <= exec_attempts tr /\
  count is_answer tr <= exec_attempts tr /\
  count is_model_call tr = refine_calls tr + count is_answer tr /\
  match r with
  | Ok _ => refine_calls tr = exec_attempts tr - 1
  | Raise _ => refine_calls tr = exec_attempts tr
  end.
Proof.
  unfold exec_attempts, refine_calls.
  induction 1 as [n le c Hn|n le c drv qr txt ans Hn Hq|n le c fl exc Hn Hfl
                 |n le c fl exc x Hn Hfl|n le c fl exc refined tr r Hn Hfl _ IH];
    intros Hle.
  - lia.
  - destruct (query_events_counts _ _ _ _ Hq) as (Hs & Hm & Ha).
    rewrite !count_app, Hm, Ha,
      (query_events_count is_exec _ _ _ _ driver_not_exec Hq),
      (query_events_count is_refine _ _ _ _ driver_not_refine Hq).
    cbn. lia.
  - destruct (failed_attempt_counts _ _ _ Hfl) as [He Hr].
    destruct (failed_attempt_more_counts _ _ _ Hfl) as (Hs & Ha & Hm).
    unfold exec_attempts, refine_calls in *. lia.
  - destruct (failed_attempt_counts _ _ _ Hfl) as [He Hr].
    destruct (failed_attempt_more_counts _ _ _ Hfl) as (Hs & Ha & Hm).
    unfold exec_attempts, refine_calls in *.
    rewrite !count_app, !count_one, He, Hr, Hm.
    cbn [is_exec is_refine is_send is_answer is_model_call]. lia.
  - destruct (failed_attempt_counts _ _ _ Hfl) as [He Hr].
    destruct (failed_attempt_more_counts _ _ _ Hfl) as (Hs & Ha & Hm).
    unfold exec_attempts, refine_calls in *.
    change (fl ++ EvRefine c exc (Ok refined) :: tr)
      with (fl ++ [EvRefine c exc (Ok refined)] ++ tr).
    rewrite !count_app, !count_one, He, Hr, Hm.
    cbn [is_exec is_refine is_send is_answer is_model_call].
    destruct IH as (IHs & IHa & IHm & IHr); [lia|].
    repeat split; try lia. destruct r; lia.
Qed.



(** A response with a result: the last four calls of the run. *)
Lemma loop_run_result n last_error candidate tr r :
  loop_run max_retries n last_error candidate tr r ->
  forall resp qr, r = Ok resp -> result resp = Some qr ->
  is_read_only_sql (sql resp) = true /\
  exists pre txt ans,
    tr = pre ++ [EvConnect (Ok tt);
                 EvSend (sql resp) []
                   (Ok (columns (dataframe qr), rows (dataframe qr)));
                 EvExec (sql resp) (Ok qr);
                 EvAnswer (sql resp) txt (Ok ans)] /\
    rowcount qr = Z.of_nat (List.length (rows (dataframe qr))) /\
    answer resp = Some ans /\ error resp = None.
Proof.
  induction 1 as [n le c Hn|n le c drv qr0 txt ans Hn Hq|n le c fl exc Hn Hfl
                 |n le c fl exc x Hn Hfl|n le c fl exc refined tr r Hn Hfl _ IH];
    intros resp qr Hr Hres.
  - injection Hr as <-. discriminate Hres.
  - injection Hr as <-. injection Hres as <-.
    inversion Hq; subst. split; [assumption|].
    exists [], txt, ans. now repeat split.
  - injection Hr as <-. discriminate Hres.
  - discriminate Hr.
  - destruct (IH resp qr Hr Hres) as (G & pre & txt & ans & -> & Hrest).
    split; [exact G|].
    exists (fl ++ EvRefine c exc (Ok refined) :: pre), txt, ans.
    split; [now rewrite <- app_assoc | exact Hrest].
Qed.


Lemma loop_run_not_catalog n last_error candidate tr r :
  loop_run max_retries n last_error candidate tr r ->
  forall ev, In ev tr ->
  is_catalog ev = false /\ (forall o, ev <> EvSchema o) /\
  (forall o, ev <> EvGenerate o).
Proof.
  assert (Hdrv : forall ev, is_driver ev = true ->
            is_catalog ev = false /\ (forall o, ev <> EvSchema o) /\
            (forall o, ev <> EvGenerate o))
    by (intros ev; destruct ev; try discriminate; now repeat split).
  assert (Hfl : forall c fl exc ev, failed_attempt c fl exc -> In ev fl ->
            is_catalog ev = false /\ (forall o, ev <> EvSchema o) /\
            (forall o, ev <> EvGenerate o)).
  { intros c fl exc ev H Hin. inversion H; subst; in_trace; subst;
      try (now apply Hdrv); now repeat split. }
  induction 1 as [n le c Hn|n le c drv qr txt ans Hn Hq|n le c fl exc Hn Hf
                 |n le c fl exc x Hn Hf|n le c fl exc refined tr r Hn Hf _ IH];
    intros ev Hin.
  - contradiction.
  - in_trace; subst; try (now apply Hdrv); now repeat split.
  - exact (Hfl _ _ _ _ Hf Hin).
  - apply in_app_or in Hin as [Hin|[<-|[]]];
      [exact (Hfl _ _ _ _ Hf Hin) | now repeat split].
  - apply in_app_or in Hin as [Hin|[<-|Hin]];
      [exact (Hfl _ _ _ _ Hf Hin) | now repeat split | now apply IH].
Qed.

End Runs.

(** ** The runs of [answer_question] *)

Lemma catalog_only_count (p : Event -> bool) (sch : list Event) :
  (forall ev, is_catalog ev = true -> p ev = false) ->
  catalog_only sch -> count p sch = 0.
Proof. intros Hp Hs. exact (catalog_count p sch Hp Hs). Qed.

Lemma count_cons (p : Event -> bool) (ev : Event) (l : list Event) :
  count p (ev :: l) = (if p ev then 1 else 0) + count p l.
Proof. unfold count. cbn [filter]. destruct (p ev); cbn [List.length]; lia. Qed.

Lemma count_nil (p : Event -> bool) : count p [] = 0.
Proof. reflexivity. Qed.

Lemma catalog_not_send (ev : Event) : is_catalog ev = true -> is_send ev = false.
Proof. now destruct ev. Qed.

Lemma catalog_not_answer (ev : Event) :
  is_catalog ev = true -> is_answer ev = false.
Proof. now destruct ev. Qed.

Lemma catalog_not_model (ev : Event) :
  is_catalog ev = true -> is_model_call ev = false.
Proof. now destruct ev. Qed.

Section WithEnv.
Context {W : Type} (E : Env W).

(** X10.  Whatever the model answers, every statement that
    [answer_question] sends to the database passed [is_read_only_sql]; it
    is the candidate of an execution attempt of the run, sent with no
    parameters, and at most one statement is sent per attempt. *)
Theorem answer_question_sends_guarded (max_retries : Z) (question : string)
  (w : W) :
  exists r w' tr,
    answer_question E max_retries question w = Some (r, w', tr) /\
    (forall stmt p o, In (EvSend stmt p o) tr ->
       is_read_only_sql stmt = true /\ p = [] /\
       exists o', In (EvExec stmt o') tr) /\
    count is_send tr <= exec_attempts tr <= Z.max 0 max_retries.
Proof.
  destruct (answer_question_sound E max_retries question w)
    as (r & w' & tr & Hrun & Hq).
  exists r, w', tr. split; [exact Hrun|].
  destruct (question_run_bounds _ _ _ Hq) as [Hbound _].
  split; [|split; [|exact Hbound]].
  - intros stmt p o Hin.
    inversion Hq as [sch x Hs|sch summary x Hs
                    |sch summary candidate ltr r0 Hs Hl]; subst;
      unfold catalog_only in Hs.
    + in_trace.
    + in_trace.
    + apply in_app_or in Hin as [Hin|Hin]; [in_trace|].
      destruct (loop_run_sends _ _ _ _ _ _ Hl _ _ _ Hin) as (G & -> & o' & He).
      repeat split; try assumption. exists o'. apply in_or_app. now right.
  - unfold exec_attempts.
    inversion Hq as [sch x Hs|sch summary x Hs
                    |sch summary candidate ltr r0 Hs Hl]; subst.
    + rewrite !count_app, (catalog_only_count is_send sch catalog_not_send Hs),
        (catalog_only_count is_exec sch catalog_not_exec Hs). cbn. lia.
    + rewrite !count_app, (catalog_only_count is_send sch catalog_not_send Hs),
        (catalog_only_count is_exec sch catalog_not_exec Hs). cbn. lia.
    + rewrite (count_app is_send), (count_app is_exec),
        (setup_count is_send sch _ _ catalog_not_send eq_refl eq_refl Hs),
        (setup_count is_exec sch _ _ catalog_not_exec eq_refl eq_refl Hs).
      destruct (Z_le_gt_dec 1 max_retries) as [Hle|Hgt].
      * destruct (loop_run_counts _ _ _ _ _ _ Hl Hle) as (Hsend & _).
        unfold exec_attempts in Hsend. lia.
      * inversion Hl; subst; try lia. cbn. lia.
Qed.

(** X11.  The price of one question, with [max_retries >= 1]: a response
    with [attempts = k] was produced by exactly [k] executions and [k - 1]
    refinement calls; a run that raises made as many refinement calls as
    executions; and no run makes more than [2 * max_retries] calls of the
    model (generation, refinements and answers together). *)
Theorem answer_question_call_counts (max_retries : Z) (question : string)
  (w : W) :
  1 <= max_retries ->
  exists r w' tr,
    answer_question E max_retries question w = Some (r, w', tr) /\
    match r with
    | Ok resp =>
        exec_attempts tr = attempts resp /\
        refine_calls tr = attempts resp - 1
    | Raise _ => refine_calls tr = exec_attempts tr
    end /\
    count is_model_call tr <= 2 * max_retries.
Proof.
  intros Hmax.
  destruct (answer_question_sound E max_retries question w)
    as (r & w' & tr & Hrun & Hq).
  exists r, w', tr. split; [exact Hrun|].
  destruct (question_run_bounds _ _ _ Hq) as [Hbe Hbr].
  unfold exec_attempts, refine_calls in *.
  inversion Hq as [sch x Hs|sch summary x Hs
                  |sch summary candidate ltr r0 Hs Hl]; subst.
  - rewrite !count_app, (catalog_only_count is_exec sch catalog_not_exec Hs),
      (catalog_only_count is_refine sch catalog_not_refine Hs),
      (catalog_only_count is_model_call sch catalog_not_model Hs).
    rewrite !count_cons, !count_nil.
    cbn [is_exec is_refine is_model_call]. lia.
  - rewrite !count_app, (catalog_only_count is_exec sch catalog_not_exec Hs),
      (catalog_only_count is_refine sch catalog_not_refine Hs),
      (catalog_only_count is_model_call sch catalog_not_model Hs).
    rewrite !count_cons, !count_nil.
    cbn [is_exec is_refine is_model_call]. lia.
  - destruct (loop_run_counts _ _ _ _ _ _ Hl Hmax) as (_ & Ha & Hm & Hr).
    unfold exec_attempts, refine_calls in *.
    rewrite (count_app is_exec), (count_app is_refine),
      (count_app is_model_call),
      (setup_count is_exec sch _ _ catalog_not_exec eq_refl eq_refl Hs),
      (setup_count is_refine sch _ _ catalog_not_refine eq_refl eq_refl Hs)
      in *.
    rewrite (count_app is_model_call sch),
      (catalog_only_count is_model_call sch catalog_not_model Hs).
    split.
    + destruct r as [resp|x]; [|lia].
      destruct (loop_run_attempts _ _ _ _ _ _ Hl resp eq_refl Hmax) as [Hat _].
      unfold exec_attempts in Hat. lia.
    + rewrite !count_cons, !count_nil. cbn [is_model_call].
      destruct r; lia.
Qed.




(** X15.  With [max_retries <= 0] the loop body never runs: nothing is
    executed or refined, and when the schema summary and the generation
    return, the response holds the generated SQL with [attempts = 1] and
    neither result, nor error, nor answer. *)
Theorem answer_question_without_budget (max_retries : Z) (question : string)
  (w : W) :
  max_retries <= 0 ->
  exists r w' tr,
    answer_question E max_retries question w = Some (r, w', tr) /\
    exec_attempts tr = 0 /\ refine_calls tr = 0 /\
    forall resp, r = Ok resp ->
      exists pre,
        tr = pre ++ [EvGenerate (Ok (sql resp))] /\
        resp = {| sql := sql resp; result := None; error := None;
                  attempts := 1; answer := None |}.
Proof.
  intros Hmax.
  destruct (answer_question_sound E max_retries question w)
    as (r & w' & tr & Hrun & Hq).
  exists r, w', tr. split; [exact Hrun|].
  destruct (question_run_bounds _ _ _ Hq) as [He Hr].
  assert (H0e : 0 <= exec_attempts tr) by (unfold exec_attempts, count; lia).
  assert (H0r : 0 <= refine_calls tr) by (unfold refine_calls, count; lia).
  split; [lia|]. split; [lia|].
  intros resp Hresp.
  inversion Hq as [sch x Hs|sch summary x Hs
                  |sch summary candidate ltr r0 Hs Hl]; subst;
    try discriminate.
  inversion Hl; subst; try lia.
  exists (sch ++ [EvSchema (Ok summary)]).
  rewrite app_nil_r, <- app_assoc. now split.
Qed.

Lemma schema_lines_no_inspection (tables : list string) :
  forall (lines : list string) (w : W) o w' tr,
  schema_lines E tables lines w = Some (o, w', tr) ->
  count is_inspection tr = 0.
Proof.
  induction tables as [|t rest IH]; intros lines w o w' tr.
  - intros [= <- <- <-]. reflexivity.
  - cbn [schema_lines]. unfold bind, call.
    destruct (get_columns E t w) as [[cols|exc] w1].
    + destruct (schema_lines E rest (lines ++ [table_line t cols]) w1)
        as [[[o2 w2] t2]|] eqn:Hrest; [|discriminate].
      intros [= <- <- <-]. cbn [app].
      rewrite count_cons, (IH _ _ _ _ _ Hrest). reflexivity.
    + intros [= <- <- <-]. reflexivity.
Qed.

Lemma get_schema_summary_inspects_once (w w' : W) (o : Outcome string)
  (tr : list Event) :
  get_schema_summary E w = Some (o, w', tr) -> count is_inspection tr = 1.
Proof.
  unfold get_schema_summary, bind, call, ret.
  destruct (get_table_names E w) as [[tables|exc] w1].
  - destruct (schema_lines E tables [] w1) as [[[[ls|exc] w2] t2]|] eqn:Hl;
      [| |discriminate]; intros [= <- <- <-];
      rewrite ?app_nil_r; cbn [app];
      rewrite count_cons, (schema_lines_no_inspection _ _ _ _ _ _ Hl);
      reflexivity.
  - intros [= <- <- <-]. reflexivity.
Qed.

(** X16.  One question reads the catalog once.  The run starts with the
    calls of a single [get_schema_summary], which asks for the table names
    exactly once; after it no catalog call and no schema summary is made
    again, however many times the SQL is refined and executed. *)
Theorem answer_question_reads_catalog_once (max_retries : Z)
  (question : string) (w : W) :
  exists r w' tr o w1 sch rest,
    answer_question E max_retries question w = Some (r, w', tr) /\
    get_schema_summary E w = Some (o, w1, sch) /\
    tr = sch ++ EvSchema o :: rest /\
    count is_inspection sch = 1 /\
    forall ev, In ev rest ->
      is_catalog ev = false /\ forall o', ev <> EvSchema o'.
Proof.
  destruct (get_schema_summary_catalog E w) as (o & w1 & sch & Hs & Hcat).
  pose proof (get_schema_summary_inspects_once _ _ _ _ Hs) as Hone.
  unfold answer_question, answer_question_fuel, bind, observe. cbv zeta.
  change (0 + 1) with 1. rewrite Hs. destruct o as [summary|x].
  - destruct (generate_sql_run E question summary (dialect_name E) w1)
      as ([candidate|x] & w2 & ->); simpl.
    + destruct (answer_loop_sound max_retries E question summary
                  (dialect_name E) (Z.to_nat max_retries) 1 None candidate w2)
        as (r & w3 & tr & -> & Hl); [lia|].
      exists r, w3, ((sch ++ [EvSchema (Ok summary)])
                       ++ EvGenerate (Ok candidate) :: tr),
        (Ok summary), w1, sch, (EvGenerate (Ok candidate) :: tr).
      repeat split; try assumption; try (now rewrite <- app_assoc).
      * destruct H as [<-|Hin]; [reflexivity|].
        now destruct (loop_run_not_catalog _ _ _ _ _ _ Hl ev Hin).
      * destruct H as [<-|Hin]; [discriminate|].
        now destruct (loop_run_not_catalog _ _ _ _ _ _ Hl ev Hin) as (_ & Hn & _).
    + exists (Raise x), w2,
        ((sch ++ [EvSchema (Ok summary)]) ++ [EvGenerate (Raise x)]),
        (Ok summary), w1, sch, [EvGenerate (Raise x)].
      repeat split; try assumption; try (now rewrite <- app_assoc);
        destruct H as [<-|[]]; [reflexivity | discriminate].
  - exists (Raise x), w1, (sch ++ [EvSchema (Raise x)]), (Raise x), w1, sch, [].
    repeat split; try assumption; contradiction.
Qed.

End WithEnv.

(** ** What the engine strips *)




Section Stripped.
Context {W : Type} (E : Env W).





Variable max_retries : Z.
Variables question schema_summary dialect : string.



End Stripped.

Section StrippedRuns.
Context {W : Type} (E : Env W).


End StrippedRuns.

(** ** The scripted runs *)



Lemma answer_question_call_counts_witness :
  exists r w' tr,
    answer_question script_env 3 the_question retry_succeeds =
      Some (r, w', tr) /\
    match r with
    | Ok resp =>
        exec_attempts tr = attempts resp /\
        refine_calls tr = attempts resp - 1
    | Raise _ => refine_calls tr = exec_attempts tr
    end /\
    count is_model_call tr <= 2 * 3.
Proof.
  apply (answer_question_call_counts script_env 3 the_question retry_succeeds).
  lia.
Defined.



Lemma answer_question_without_budget_witness :
  exists r w' tr,
    answer_question script_env 0 the_question retry_succeeds =
      Some (r, w', tr) /\
    exec_attempts tr = 0 /\ refine_calls tr = 0 /\
    forall resp, r = Ok resp ->
      exists pre,
        tr = pre ++ [EvGenerate (Ok (sql resp))] /\
        resp = {| sql := sql resp; result := None; error := None;
                  attempts := 1; answer := None |}.
Proof.
  apply (answer_question_without_budget script_env 0 the_question
           retry_succeeds).
  lia.
Defined.

(** ** The error of a failure response *)

Lemma loop_run_error (max_retries : Z) n last_error candidate tr r :
  loop_run max_retries n last_error candidate tr r ->
  forall resp e, r = Ok resp -> n <= max_retries -> error resp = Some e ->
  exists pre ev, tr = pre ++ [ev] /\ failure_of ev = Some (sql resp, e).
Proof.
  induction 1 as [n le c Hn|n le c drv qr txt ans Hn Hq|n le c fl exc Hn Hfl
                 |n le c fl exc x Hn Hfl|n le c fl exc refined tr r Hn Hfl _ IH];
    intros resp e Hr Hle He.
  - lia.
  - injection Hr as <-. discriminate He.
  - injection Hr as <-. injection He as <-.
    destruct (failed_attempt_last _ _ _ Hfl) as (init & ev & -> & Hf & _).
    now exists init, ev.
  - discriminate Hr.
  - destruct (IH resp e Hr) as (pre & ev & -> & Hf); [lia | exact He |].
    exists (fl ++ EvRefine c exc (Ok refined) :: pre), ev.
    split; [now rewrite <- app_assoc | exact Hf].
Qed.

Lemma answer_question_run_error {W : Type} (E : Env W) (max_retries : Z)
  (question : string) (w w' : W) (resp : AgentResponse) (tr : list Event)
  (e : string) :
  1 <= max_retries ->
  answer_question E max_retries question w = Some (Ok resp, w', tr) ->
  error resp = Some e ->
  result resp = None /\ answer resp = None /\
  attempts resp = max_retries /\
  exists pre ev, tr = pre ++ [ev] /\ failure_of ev = Some (sql resp, e).
Proof.
  intros Hmax Hrun He.
  destruct (answer_question_sound E max_retries question w)
    as (r0 & w0 & tr0 & Hrun0 & Hq).
  rewrite Hrun in Hrun0. injection Hrun0 as <- <- <-.
  destruct (question_run_response _ _ _ Hq Hmax)
    as [(qr & ans & _ & _ & Hnone)|(exc & Hres & Hans & _ & Hatt)];
    [congruence|].
  repeat split; try assumption.
  inversion Hq as [| |sch summary candidate ltr r0 Hs Hl]; subst.
  destruct (loop_run_error _ _ _ _ _ _ Hl resp e eq_refl Hmax He)
    as (pre & ev & -> & Hf).
  exists ((sch ++ [EvSchema (Ok summary); EvGenerate (Ok candidate)]) ++ pre),
    ev.
  split; [now rewrite <- !app_assoc | exact Hf].
Qed.

Section FailureResponse.
Context {W : Type} (E : Env W).

(** X18.  A response with an error, for [max_retries >= 1], reports the
    last call of the run: that call is the execution or the answer
    synthesis of the response's [sql], it raised the response's [error],
    the budget is used up ([attempts = max_retries]), and there is no
    result and no answer, whether the earlier passes failed in the
    database or in the answer synthesis. *)
Theorem answer_question_failure_response (max_retries : Z)
  (question : string) (w w' : W) (resp : AgentResponse) (tr : list Event)
  (e : string) :
  1 <= max_retries ->
  answer_question E max_retries question w = Some (Ok resp, w', tr) ->
  error resp = Some e ->
  result resp = None /\ answer resp = None /\
  attempts resp = max_retries /\
  exists pre ev, tr = pre ++ [ev] /\ failure_of ev = Some (sql resp, e).
Proof. apply answer_question_run_error. Qed.

End FailureResponse.

Lemma answer_question_failure_response_witness :
  exists resp w' tr,
    answer_question script_env 3 the_question all_fail =
      Some (Ok resp, w', tr) /\
    error resp = Some "near FROM: syntax error" /\
    result resp = None /\ answer resp = None /\ attempts resp = 3 /\
    exists pre ev,
      tr = pre ++ [ev] /\
      failure_of ev = Some (sql resp, "near FROM: syntax error").
Proof.
  do 3 eexists. split; [run_script|]. split; [reflexivity|].
  eapply (answer_question_failure_response script_env 3 the_question
            all_fail); [lia | run_script | reflexivity].
Defined.

(** Every statement sent in a run passed the guard. *)
Lemma answer_question_run_sends {W : Type} (E : Env W) (max_retries : Z)
  (question : string) (w w' : W) (r : Outcome AgentResponse)
  (tr : list Event) :
  answer_question E max_retries question w = Some (r, w', tr) ->
  forall stmt p o, In (EvSend stmt p o) tr ->
  is_read_only_sql stmt = true /\ p = [].
Proof.
  intros Hrun stmt p o Hin.
  destruct (answer_question_sound E max_retries question w)
    as (r0 & w0 & tr0 & Hrun0 & Hq).
  rewrite Hrun in Hrun0. injection Hrun0 as <- <- <-.
  inversion Hq as [sch x Hs|sch summary x Hs
                  |sch summary candidate ltr r0 Hs Hl]; subst;
    unfold catalog_only in Hs.
  - in_trace.
  - in_trace.
  - apply in_app_or in Hin as [Hin|Hin]; [in_trace|].
    destruct (loop_run_sends _ _ _ _ _ _ Hl _ _ _ Hin) as (G & Hp & _).
    now split.
Qed.

End AgentExtras.

(* ================================================================== *)
(** * db_manager.py: [test_connection]; app_core.py: [create_agent];
      main.py: [main] *)
(* ================================================================== *)

From Stdlib Require Import DecimalString.

Set Implicit Arguments.

Module Cli.
Import PyStr DbManager AppCore Effects Database LLMEngine Agent.
Local Open Scope string_scope.
Local Open Scope py_scope.

(** [str(n)] of a Python [int]. *)
Definition str_of_int (n : Z) : string := NilZero.string_of_int (Z.to_int n).

(** [str(x)] of an [Optional[str]]. *)
Definition str_of_optional (x : option string) : string :=
  match x with Some s => s | None => "None" end.

(** The [argparse.Namespace] of [parse_args]. *)
Record Namespace : Type := {
  db_path : string;
  question : option string
}.

(** What the command line adds to the collaborators of an agent.
    - [sys_argv]: [sys.argv[1:]];
    - [parse]: [parser.parse_args(argv)] of [parse_args], which returns
      the namespace or leaves the program;
    - [input]: the built-in [input(prompt)];
    - [load_env]: [load_env()], the two [load_dotenv] calls;
    - [build_llm]: [build_app_config_from_env()],
      [build_llm_from_config(config)] and [LLMEngine(llm)];
    - [collaborators uri]: what [DatabaseManager(uri)] and the engine
      built talk to;
    - [is_sqlalchemy_error exc]: whether the exception whose text is [exc]
      is an instance of [SQLAlchemyError] (an exception is known by its
      text here). *)
Record Shell (W : Type) : Type := {
  sys_argv : list string;
  parse : list string -> W -> Outcome Namespace * W;
  input : string -> W -> Outcome string * W;
  load_env : W -> Outcome unit * W;
  build_llm : W -> Outcome unit * W;
  collaborators : string -> Env W;
  is_sqlalchemy_error : string -> bool
}.

Definition connection_error_line : string :=
  "[ERROR] Could not connect to the SQLite database.".

Definition input_prompt : string := "Enter your question about the data: ".

Section WithShell.
Context {W : Type} (S : Shell W).

(** [DatabaseManager.test_connection]: [True] when [SELECT 1] runs,
    [False] on an [SQLAlchemyError]; any other exception goes on. *)
Definition test_connection (E : Env W) : M W bool :=
  try_except
    (_ <- call EvConnect (connect E) ;;
     _ <- call (EvSend "SELECT 1" []) (execute E "SELECT 1" []) ;;
     ret true)
    (fun exc => if is_sqlalchemy_error S exc then ret false else raise exc).

(** [create_agent]: the collaborators of the agent and its
    [max_retries]. *)
Definition create_agent (db_identifier : string) (max_retries : Z)
  : M W (Env W * Z) :=
  _ <- invoke (load_env S) ;;
  _ <- invoke (build_llm S) ;;
  let db_uri := normalize_db_uri db_identifier in
  ret (collaborators S db_uri, max_retries).

(** [print("\n--- Result (", rowcount, "rows ) ---", sep="")]. *)
Definition result_line (rowcount : Z) : string :=
  newline ++ "--- Result (" ++ str_of_int rowcount ++ "rows ) ---".

(** [print("\n[ERROR] Query failed after", attempts, "attempt(s):")]. *)
Definition failure_line (attempts : Z) : string :=
  newline ++ "[ERROR] Query failed after" ++ " " ++ str_of_int attempts
    ++ " " ++ "attempt(s):".

(** The lines [main] prints once [answer_question] has returned, and its
    exit code. *)
Definition report (E : Env W) (response : AgentResponse)
  : list string * Z :=
  let header := [newline ++ "--- Generated SQL ---"; sql response] in
  match error response, result response with
  | None, Some res =>
      (app header
           [result_line (rowcount res); to_string E (dataframe res)], 0%Z)
  | _, _ =>
      (app header
           [failure_line (attempts response);
            str_of_optional (error response)], 1%Z)
  end.

(** [args.question or input(...)]: the prompt is shown when the option is
    absent or empty. *)
Definition question_or_input (args : Namespace) : M W string :=
  match question args with
  | Some (String c q) => ret (String c q)
  | _ => invoke (input S input_prompt)
  end.

(** [main(argv)]: the lines printed and the exit code. *)
Definition main (argv : option (list string)) : M W (list string * Z) :=
  let argv :=
    match argv with
    | Some (a :: rest) => (a :: rest)%list
    | _ => sys_argv S
    end in
  args <- invoke (parse S argv) ;;
  question <- question_or_input args ;;
  _ <- invoke (load_env S) ;;
  let db_uri := normalize_db_uri (db_path args) in
  agent <- create_agent db_uri 3 ;;
  let '(E, max_retries) := agent in
  connected <- test_connection E ;;
  if negb connected then ret ([connection_error_line], 1%Z)
  else
    response <- answer_question E max_retries question ;;
    ret (report E response).

End WithShell.
End Cli.

Unset Implicit Arguments.

(* ================================================================== *)
(** * The command line *)
(* ================================================================== *)

Module CliFacts.
Import PyStr DbManager AppCore Effects Database LLMEngine Agent Scripted Cli.
Import PyStrFacts GuardFacts DatabaseFacts AgentFacts AgentClaims.
Import UriExtras AgentExtras.
Local Open Scope string_scope.
Local Open Scope list_scope.
Local Open Scope Z_scope.

Lemma normalize_db_uri_is_stripped (x : string) :
  strip (normalize_db_uri x) = normalize_db_uri x.
Proof.
  rewrite normalize_db_uri_unfold.
  destruct (contains "://" (strip x));
    [|destruct (startswith (lower (strip x)) "sqlite:")];
    try apply strip_idem.
  apply sqlite_prefix_stripped, strip_rstrip.
Qed.

Lemma normalize_db_uri_twice (x : string) :
  normalize_db_uri (normalize_db_uri x) = normalize_db_uri x.
Proof.
  pose proof (normalize_db_uri_scheme x) as Hscheme.
  rewrite (normalize_db_uri_unfold (normalize_db_uri x)).
  rewrite normalize_db_uri_is_stripped.
  unfold has_scheme in Hscheme.
  destruct (contains "://" (normalize_db_uri x)); [reflexivity|].
  cbn [orb] in Hscheme. now rewrite Hscheme.
Qed.

(** The calls of one [test_connection] and its outcome. *)
Inductive probe_events (sqlalchemy : string -> bool)
  : list Event -> Outcome bool -> Prop :=
| probe_connected keys fetched :
    probe_events sqlalchemy
      [EvConnect (Ok tt); EvSend "SELECT 1" [] (Ok (keys, fetched))]
      (Ok true)
| probe_no_connection exc :
    probe_events sqlalchemy [EvConnect (Raise exc)]
      (if sqlalchemy exc then Ok false else Raise exc)
| probe_no_statement exc :
    probe_events sqlalchemy
      [EvConnect (Ok tt); EvSend "SELECT 1" [] (Raise exc)]
      (if sqlalchemy exc then Ok false else Raise exc).

Section WithShell.
Context {W : Type} (S : Shell W).

Lemma test_connection_run (E : Env W) (w : W) :
  exists o w' tr,
    test_connection S E w = Some (o, w', tr) /\
    probe_events (is_sqlalchemy_error S) tr o.
Proof.
  unfold test_connection, try_except, bind, call, ret, raise.
  destruct (connect E w) as [[[]|exc] w1].
  - destruct (execute E "SELECT 1" [] w1) as [[[keys fetched]|exc] w2]; simpl.
    + do 3 eexists. split; [reflexivity | constructor].
    + destruct (is_sqlalchemy_error S exc) eqn:Hc;
        do 3 eexists; (split; [reflexivity|]); rewrite ?app_nil_r;
        pose proof (probe_no_statement (is_sqlalchemy_error S) exc) as Hp;
        now rewrite Hc in Hp.
  - destruct (is_sqlalchemy_error S exc) eqn:Hc;
      do 3 eexists; (split; [reflexivity|]); rewrite ?app_nil_r;
      pose proof (probe_no_connection (is_sqlalchemy_error S) exc) as Hp;
      now rewrite Hc in Hp.
Qed.

(** X19.  [test_connection] sends nothing but [SELECT 1], a statement the
    guard accepts, and only after a connection was opened.  It returns
    [True] exactly when the connection and the statement both worked and
    [False] exactly when one of them raised an [SQLAlchemyError]; an
    exception of another class is not caught and leaves
    [test_connection]. *)
Theorem test_connection_outcomes (E : Env W) (w : W) :
  exists o w' tr,
    test_connection S E w = Some (o, w', tr) /\
    is_read_only_sql "SELECT 1" = true /\
    (forall stmt p r, In (EvSend stmt p r) tr ->
       stmt = "SELECT 1" /\ p = [] /\ exists rest, tr = EvConnect (Ok tt) :: rest)
    /\
    (o = Ok true <->
     exists keys fetched,
       tr = [EvConnect (Ok tt); EvSend "SELECT 1" [] (Ok (keys, fetched))]) /\
    (forall exc,
       (tr = [EvConnect (Raise exc)] \/
        tr = [EvConnect (Ok tt); EvSend "SELECT 1" [] (Raise exc)]) ->
       o = if is_sqlalchemy_error S exc then Ok false else Raise exc).
Proof.
  destruct (test_connection_run E w) as (o & w' & tr & Hrun & Hp).
  exists o, w', tr. split; [exact Hrun|]. split; [reflexivity|].
  inversion Hp as [keys fetched|exc|exc]; subst; repeat split.
  - destruct H as [H|[H|[]]]; [discriminate | now injection H].
  - destruct H as [H|[H|[]]]; [discriminate | now injection H].
  - now eexists.
  - intros _. now exists keys, fetched.
  - intros exc [H|H]; discriminate.
  - destruct H as [H|[]]. discriminate.
  - destruct H as [H|[]]. discriminate.
  - destruct H as [H|[]]. discriminate.
  - intros H. destruct (is_sqlalchemy_error S exc); discriminate.
  - intros (keys & fetched & H). discriminate.
  - intros exc' [[= ->]|H]; [reflexivity | discriminate].
  - destruct H as [H|[H|[]]]; [discriminate | now injection H].
  - destruct H as [H|[H|[]]]; [discriminate | now injection H].
  - now eexists.
  - intros H. destruct (is_sqlalchemy_error S exc); discriminate.
  - intros (keys & fetched & H). discriminate.
  - intros exc' [H|[= ->]]; [discriminate | reflexivity].
Qed.

(** [argv or sys.argv[1:]]. *)
Definition effective_argv (argv : option (list string)) : list string :=
  match argv with
  | Some (a :: rest) => a :: rest
  | _ => sys_argv S
  end.

Lemma question_or_input_run (args : Namespace) (w : W) :
  exists o w', question_or_input S args w = Some (o, w', []).
Proof.
  unfold question_or_input, invoke, ret.
  destruct (question args) as [[|c q]|];
    try (destruct (input S input_prompt w) as [o w']); eauto.
Qed.

(** What [main] did when it returned an exit code. *)
Lemma main_run (argv : option (list string)) (w w' : W)
  (out : list string) (code : Z) (tr : list Event) :
  main S argv w = Some (Ok (out, code), w', tr) ->
  exists args w1 q w2 w3 probe connected,
    parse S (effective_argv argv) w = (Ok args, w1) /\
    test_connection S (collaborators S (normalize_db_uri (db_path args))) w2 =
      Some (Ok connected, w3, probe) /\
    ((connected = false /\ tr = probe /\
      out = [connection_error_line] /\ code = 1) \/
     (connected = true /\
      exists resp atr,
        answer_question (collaborators S (normalize_db_uri (db_path args)))
          3 q w3 = Some (Ok resp, w', atr) /\
        tr = probe ++ atr /\
        (out, code) =
          report (collaborators S (normalize_db_uri (db_path args))) resp)).
Proof.
  unfold main, create_agent, bind, invoke, ret. cbv zeta.
  fold (effective_argv argv).
  destruct (parse S (effective_argv argv) w) as [[args|x] w1] eqn:Hparse;
    [|discriminate].
  destruct (question_or_input_run args w1) as ([q|x] & w2 & ->);
    [|discriminate].
  destruct (load_env S w2) as [[[]|x] w3]; [|discriminate].
  destruct (load_env S w3) as [[[]|x] w4]; [|discriminate].
  destruct (build_llm S w4) as [[[]|x] w5]; [|discriminate].
  rewrite normalize_db_uri_twice. simpl.
  destruct (test_connection_run
              (collaborators S (normalize_db_uri (db_path args))) w5)
    as (o & w6 & probe & Hprobe & _).
  rewrite Hprobe. destruct o as [[|]|x]; [| |discriminate]; simpl.
  - destruct (answer_question
                (collaborators S (normalize_db_uri (db_path args))) 3 q w6)
      as [[[[resp|x] w7] atr]|] eqn:Hrun; try discriminate.
    rewrite app_nil_r. intros [= Hrep <- <-].
    exists args, w1, q, w5, w6, probe, true.
    split; [reflexivity|]. split; [exact Hprobe|].
    right. split; [reflexivity|]. exists resp, atr.
    split; [exact Hrun|]. split; [reflexivity | now symmetry].
  - rewrite app_nil_r. intros [= <- <- <- <-].
    exists args, w1, q, w5, w6, probe, false.
    split; [reflexivity|]. split; [exact Hprobe|].
    left. now repeat split.
Qed.

(** The calls of [main], whatever its outcome: nothing, or the connection
    test, followed or not by one [answer_question] with a budget of 3. *)
Lemma main_trace (argv : option (list string)) (w w' : W)
  (r : Outcome (list string * Z)) (tr : list Event) :
  main S argv w = Some (r, w', tr) ->
  tr = [] \/
  exists E w2 o w3 probe,
    test_connection S E w2 = Some (o, w3, probe) /\
    (tr = probe \/
     exists q r2 atr,
       o = Ok true /\
       answer_question E 3 q w3 = Some (r2, w', atr) /\ tr = probe ++ atr).
Proof.
  unfold main, create_agent, bind, invoke, ret. cbv zeta.
  fold (effective_argv argv).
  destruct (parse S (effective_argv argv) w) as [[args|x] w1];
    [|intros [= <- <- <-]; now left].
  destruct (question_or_input_run args w1) as ([q|x] & w2 & ->);
    [|intros [= <- <- <-]; now left].
  destruct (load_env S w2) as [[[]|x] w3]; [|intros [= <- <- <-]; now left].
  destruct (load_env S w3) as [[[]|x] w4]; [|intros [= <- <- <-]; now left].
  destruct (build_llm S w4) as [[[]|x] w5]; [|intros [= <- <- <-]; now left].
  rewrite normalize_db_uri_twice. simpl.
  destruct (test_connection_run
              (collaborators S (normalize_db_uri (db_path args))) w5)
    as (o & w6 & probe & Hprobe & _).
  rewrite Hprobe. intros Hmain. right.
  exists (collaborators S (normalize_db_uri (db_path args))), w5, o, w6, probe.
  split; [exact Hprobe|].
  destruct o as [[|]|x]; simpl in Hmain.
  - destruct (answer_question
                (collaborators S (normalize_db_uri (db_path args))) 3 q w6)
      as [[[r2 w7] atr]|] eqn:Hrun; [|discriminate].
    right. exists q, r2, atr. split; [reflexivity|].
    destruct r2 as [resp|x]; injection Hmain as <- <- <-;
      rewrite ?app_nil_r; now split.
  - left. injection Hmain as <- <- <-. now rewrite app_nil_r.
  - left. now injection Hmain as <- <- <-.
Qed.

Lemma answer_question_run_result (E : Env W) (max_retries : Z)
  (question : string) (w w' : W) (resp : AgentResponse) (tr : list Event)
  (qr : QueryResult) :
  answer_question E max_retries question w = Some (Ok resp, w', tr) ->
  result resp = Some qr ->
  error resp = None /\
  exists pre txt ans,
    tr = pre ++ [EvExec (sql resp) (Ok qr); EvAnswer (sql resp) txt (Ok ans)].
Proof.
  intros Hrun Hres.
  destruct (answer_question_sound E max_retries question w)
    as (r0 & w0 & tr0 & Hrun0 & Hq).
  rewrite Hrun in Hrun0. injection Hrun0 as <- <- <-.
  inversion Hq as [| |sch summary candidate ltr r0 Hs Hl]; subst.
  destruct (loop_run_result _ _ _ _ _ _ Hl resp qr eq_refl Hres)
    as (_ & pre & txt & ans & -> & _ & _ & Herr).
  split; [exact Herr|].
  exists ((sch ++ [EvSchema (Ok summary); EvGenerate (Ok candidate)]) ++ pre
            ++ [EvConnect (Ok tt);
                EvSend (sql resp) []
                  (Ok (columns (dataframe qr), rows (dataframe qr)))]),
    txt, ans.
  now rewrite <- !app_assoc.
Qed.

(** X20.  What [main] prints and returns, for a command line that parses
    to [args].  Exit code 1 with the one connection-error line when the
    connection test met an [SQLAlchemyError]: the catalog and the model
    were not called.  Exit code 0 with the SQL, the row count and the
    table when the run ended on a successful execution and answer of that
    SQL.  Exit code 1 otherwise, with the SQL, [3] as the number of
    attempts and an error text that is the error the last call of the run
    raised on that SQL (never the text [None]). *)
Theorem main_exit_code (argv : option (list string)) (w w1 w' : W)
  (args : Namespace) (out : list string) (code : Z) (tr : list Event) :
  parse S (effective_argv argv) w = (Ok args, w1) ->
  main S argv w = Some (Ok (out, code), w', tr) ->
  (code = 1 /\ out = [connection_error_line] /\
   exists exc,
     is_sqlalchemy_error S exc = true /\
     (tr = [EvConnect (Raise exc)] \/
      tr = [EvConnect (Ok tt); EvSend "SELECT 1" [] (Raise exc)]))
  \/
  (code = 0 /\
   exists candidate qr keys fetched pre txt ans,
     tr = EvConnect (Ok tt) :: EvSend "SELECT 1" [] (Ok (keys, fetched))
            :: pre ++ [EvExec candidate (Ok qr);
                       EvAnswer candidate txt (Ok ans)] /\
     out = [(newline ++ "--- Generated SQL ---")%string; candidate;
            result_line (rowcount qr);
            to_string (collaborators S (normalize_db_uri (db_path args)))
              (dataframe qr)])
  \/
  (code = 1 /\
   exists candidate e keys fetched pre ev,
     tr = EvConnect (Ok tt) :: EvSend "SELECT 1" [] (Ok (keys, fetched))
            :: pre ++ [ev] /\
     failure_of ev = Some (candidate, e) /\
     out = [(newline ++ "--- Generated SQL ---")%string; candidate;
            failure_line 3; e]).
Proof.
  intros Hparse Hmain.
  destruct (main_run _ _ _ _ _ _ Hmain)
    as (args' & w1' & q & w2 & w3 & probe & connected & Hparse' & Hprobe
        & Hcases).
  rewrite Hparse in Hparse'. injection Hparse' as <- <-.
  destruct (test_connection_run
              (collaborators S (normalize_db_uri (db_path args))) w2)
    as (o & w3' & probe' & Hprobe' & Hp).
  rewrite Hprobe in Hprobe'. injection Hprobe' as <- <- <-.
  destruct Hcases as [(-> & -> & -> & ->)|(-> & resp & atr & Hrun & -> & Hrep)].
  - left. split; [reflexivity|]. split; [reflexivity|].
    inversion Hp as [|exc Hx Ho|exc Hx Ho]; subst; exists exc;
      destruct (is_sqlalchemy_error S exc); try discriminate Ho; auto.
  - right.
    assert (Hok : exists keys fetched,
               probe = [EvConnect (Ok tt);
                        EvSend "SELECT 1" [] (Ok (keys, fetched))]).
    { inversion Hp as [keys fetched|exc Hx Ho|exc Hx Ho]; subst; eauto;
        destruct (is_sqlalchemy_error S exc); discriminate Ho. }
    destruct Hok as (keys & fetched & ->).
    unfold report in Hrep.
    destruct (error resp) as [e|] eqn:Herr.
    + right. injection Hrep as -> ->. split; [reflexivity|].
      destruct (answer_question_run_error _ 3 _ _ _ _ _ e ltac:(lia) Hrun Herr)
        as (_ & _ & Hatt & pre & ev & -> & Hf).
      exists (sql resp), e, keys, fetched, pre, ev.
      rewrite Hatt. now repeat split.
    + destruct (result resp) as [qr|] eqn:Hres.
      * left. injection Hrep as -> ->. split; [reflexivity|].
        destruct (answer_question_run_result _ _ _ _ _ _ _ _ Hrun Hres)
          as (_ & pre & txt & ans & ->).
        exists (sql resp), qr, keys, fetched, pre, txt, ans.
        now split.
      * exfalso.
        destruct (answer_question_sound
                    (collaborators S (normalize_db_uri (db_path args))) 3 q w3)
          as (r0 & w0 & tr0 & Hrun0 & Hq).
        rewrite Hrun in Hrun0. injection Hrun0 as <- <- <-.
        destruct (question_run_response _ _ _ Hq ltac:(lia))
          as [(qr & ans & ? & _)|(exc & _ & _ & ? & _)]; congruence.
Qed.

(** X21.  Whatever [main] does (exit code, or an exception that leaves
    it), every statement it sends to the database passed the read-only
    guard and is sent without parameters. *)
Theorem main_sends_guarded (argv : option (list string)) (w w' : W)
  (r : Outcome (list string * Z)) (tr : list Event)
  (stmt : string) (p : Params) (o : Outcome (list string * list Row)) :
  main S argv w = Some (r, w', tr) ->
  In (EvSend stmt p o) tr ->
  is_read_only_sql stmt = true /\ p = [].
Proof.
  intros Hmain Hin.
  destruct (main_trace _ _ _ _ _ Hmain)
    as [->|(E & w2 & o' & w3 & probe & Hprobe & Htr)]; [contradiction|].
  assert (Hpr : In (EvSend stmt p o) probe ->
                is_read_only_sql stmt = true /\ p = []).
  { destruct (test_connection_run E w2) as (o2 & w4 & probe2 & Hprobe2 & Hp).
    rewrite Hprobe in Hprobe2. injection Hprobe2 as <- <- <-.
    intros Hi. inversion Hp; subst; simpl in Hi;
      repeat (destruct Hi as [Hi|Hi];
              [try discriminate Hi; injection Hi as <- <- <-; now split|]);
      contradiction. }
  destruct Htr as [->|(q & r2 & atr & _ & Hrun & ->)]; [now apply Hpr|].
  apply in_app_or in Hin as [Hin|Hin]; [now apply Hpr|].
  exact (answer_question_run_sends _ _ _ _ _ _ _ Hrun _ _ _ Hin).
Qed.

End WithShell.

(** ** A scripted command line *)

(** A shell over the scripted world: two shapes of command line, a user
    who types the question when prompted, and a driver whose
    [OperationalError]s are the [SQLAlchemyError]s. *)
Definition script_shell : Shell Script := {|
  sys_argv := ["--db-path"; "data/example.db"];
  parse := fun argv w =>
    (match argv with
     | ["--db-path"; p] => Ok {| db_path := p; question := None |}
     | ["--db-path"; p; "--question"; q] =>
         Ok {| db_path := p; question := Some q |}
     | _ => Raise "SystemExit: 2"
     end, w);
  input := fun _ w => (Ok the_question, w);
  load_env := fun w => (Ok tt, w);
  build_llm := fun w => (Ok tt, w);
  collaborators := fun _ => script_env;
  is_sqlalchemy_error := fun exc =>
    startswith exc "(sqlite3.OperationalError)"
|}.

(** The script [w], with a connection test that works put in front. *)
Definition after_probe (w : Script) : Script :=
  {| catalog := catalog w;
     connects := Ok tt :: connects w;
     executes := Ok (["1"], [["1"]]) :: executes w;
     generations := generations w;
     refinements := refinements w;
     answers := answers w |}.

Lemma main_exit_code_witness :
  exists out code w' tr,
    main script_shell None (after_probe all_fail) =
      Some (Ok (out, code), w', tr) /\
    ((code = 1 /\ out = [connection_error_line] /\
      exists exc,
        is_sqlalchemy_error script_shell exc = true /\
        (tr = [EvConnect (Raise exc)] \/
         tr = [EvConnect (Ok tt); EvSend "SELECT 1" [] (Raise exc)]))
     \/
     (code = 0 /\
      exists candidate qr keys fetched pre txt ans,
        tr = EvConnect (Ok tt) :: EvSend "SELECT 1" [] (Ok (keys, fetched))
               :: pre ++ [EvExec candidate (Ok qr);
                          EvAnswer candidate txt (Ok ans)] /\
        out = [(newline ++ "--- Generated SQL ---")%string; candidate;
               result_line (rowcount qr);
               to_string
                 (collaborators script_shell
                    (normalize_db_uri "data/example.db"))
                 (dataframe qr)])
     \/
     (code = 1 /\
      exists candidate e keys fetched pre ev,
        tr = EvConnect (Ok tt) :: EvSend "SELECT 1" [] (Ok (keys, fetched))
               :: pre ++ [ev] /\
        failure_of ev = Some (candidate, e) /\
        out = [(newline ++ "--- Generated SQL ---")%string; candidate;
               failure_line 3; e])).
Proof.
  do 4 eexists. split; [run_script|].
  eapply (main_exit_code script_shell None (after_probe all_fail)
            (after_probe all_fail) _
            {| db_path := "data/example.db"; question := None |});
    [reflexivity | run_script].
Defined.

Lemma main_sends_guarded_witness :
  exists r w' tr,
    main script_shell
      (Some ["--db-path"; "data/example.db"; "--question"; the_question])
      (after_probe retry_succeeds) = Some (r, w', tr) /\
    In (EvSend "SELEC user_id FROM orders" []
          (Raise "near SELEC: syntax error")) tr /\
    is_read_only_sql "SELEC user_id FROM orders" = true /\
    @nil (string * string) = [].
Proof.
  do 3 eexists. split; [run_script|].
  split; [simpl; auto 10|].
  eapply (main_sends_guarded script_shell
            (Some ["--db-path"; "data/example.db"; "--question";
                   the_question])
            (after_probe retry_succeeds));
    [run_script | simpl; auto 10].
Defined.

End CliFacts.
